(** * gotch/ts: lifetime management of native tensor handles

    A shallow embedding of the handle bookkeeping of [ts/tensor.go]:
    [newTensor], [newName], [freeCTensor], [Tensor.Drop], [CheckCMemLeak],
    [Tensor.Size] with [decodeSize], [Tensor.nbytes], [Tensor.Numel],
    [Tensor.CopyData], [Tensor.CopyDataUint8] and [OfDataSize].

    The process-wide variables ([TensorCount], [AllocatedMem],
    [ExistingTensors], [gotch.Debug]) and the state of the native engine are
    threaded through a small state monad that also records a trace of the
    observable events (lock operations, calls through cgo, log lines,
    accesses to the shared variables).  [log.Fatal] and run-time panics end
    the computation with the outcome [Fatal]. *)

From stdpp Require Import gmap strings list pretty.
From Stdlib Require Import ZArith Lia Ascii String.
From Stdlib.Strings Require Import Byte.

Local Open Scope Z_scope.

(** ** Machine integers

    Go's [int64], [uint64], and on the 64-bit targets of the binding [int]
    and [uint], as [Z] with the wrap-around of conversions and arithmetic
    written out. *)

Definition wrap_int64 (z : Z) : Z := (z + 2 ^ 63) mod 2 ^ 64 - 2 ^ 63.
Definition wrap_uint64 (z : Z) : Z := z mod 2 ^ 64.

Definition is_int64 (z : Z) : Prop := - 2 ^ 63 <= z < 2 ^ 63.
Definition is_uint64 (z : Z) : Prop := 0 <= z < 2 ^ 64.

(** [int(x)] and [uint(x)], [int64(x)] of an integer of another type. *)
Definition to_int (z : Z) : Z := wrap_int64 z.
Definition to_uint (z : Z) : Z := wrap_uint64 z.

(** [len(s)] as an [int]. *)
Definition len {A} (l : list A) : Z := Z.of_nat (List.length l).

(** ** Formatting ([fmt])

    [%d] and [%v] of an integer print its decimal digits; [%09d] pads the
    digits with zeros up to width nine, the sign counting for one. *)

Definition nl : string := String "010"%char EmptyString.

Fixpoint zeros (n : nat) : string :=
  match n with
  | O => EmptyString
  | S n => String "0"%char (zeros n)
  end.

Definition zpad (width : nat) (s : string) : string :=
  zeros (width - String.length s) +:+ s.

Definition fmt_d (v : Z) : string := pretty v.

Definition fmt_09d (v : Z) : string :=
  if v <? 0 then "-" +:+ zpad 8 (pretty (Z.to_N (- v)))
  else zpad 9 (pretty (Z.to_N v)).

Fixpoint join (sep : string) (l : list string) : string :=
  match l with
  | [] => EmptyString
  | [x] => x
  | x :: rest => x +:+ sep +:+ join sep rest
  end.

(** [%v] of a slice of integers: the elements between brackets. *)
Definition fmt_v_ints (l : list Z) : string :=
  "[" +:+ join " " (fmt_d <$> l) +:+ "]".

(** Leading zeros removed; the left inverse of [zpad] used for the
    injectivity of [fmt_09d]. *)
Fixpoint lstrip0 (s : string) : string :=
  match s with
  | String "0"%char r => lstrip0 r
  | _ => s
  end.

(** ** Data model *)

(** A Go [error] value, by its message; [nil] is [None]. *)
Definition error : Type := string.

(** [lib.Ctensor], a C pointer to a [torch::Tensor]; [nil] is [None]. *)
Definition Ctensor : Type := option positive.

(** [Tensor]: the wrapper of one native handle.  The field [d], a block of
    100k bytes that only forces the wrapper onto the heap, carries no
    information and is left out.  A [*Tensor] is modelled by the wrapper it
    points to; the functions that update the wrapper return it. *)
Record Tensor : Type := mkTensor {
  name : string;
  ctensor : Ctensor;
  calledFrom : string
}.

Definition set_ctensor (c : Ctensor) (ts : Tensor) : Tensor :=
  {| name := name ts; ctensor := c; calledFrom := calledFrom ts |}.
Definition set_calledFrom (s : string) (ts : Tensor) : Tensor :=
  {| name := name ts; ctensor := ctensor ts; calledFrom := s |}.
Definition set_name (s : string) (ts : Tensor) : Tensor :=
  {| name := s; ctensor := ctensor ts; calledFrom := calledFrom ts |}.

(** The variables guarded by [lock]. *)
Inductive Var : Type := VTensorCount | VAllocatedMem | VExistingTensors.

(** Calls into the native library [libtch]. *)
Inductive Call : Type :=
  | CAtFree (c : Ctensor)
  | CAtDim (c : Ctensor)
  | CAtShape (c : Ctensor)
  | CAtDefined (c : Ctensor)
  | CAtScalarType (c : Ctensor)
  | CAtCopyData (c : Ctensor) (numel elt_size : Z)
  | CAtTensorOfData (shape : list Z) (elt_size kind : Z)
  | CAtNewTensor
  | CGetAndResetLastErr.

(** What a run of the code does that can be observed from outside. *)
Inductive Event : Type :=
  | EvLock
  | EvUnlock
  | EvNative (c : Call)
  | EvLog (msg : string)
  | EvRead (v : Var)
  | EvWrite (v : Var)
  | EvAtomicAdd (v : Var) (delta : Z)
  | EvSetHandle (wrapper : string) (c : Ctensor)
  | EvSetFinalizer (wrapper : string) (armed : bool)
  | EvCMalloc (nbytes : Z)
  | EvCFree.

(** The package [gotch] and the helpers of package [ts] that live outside
    [tensor.go], as far as [tensor.go] uses them: element types with their
    sizes and C codes, shape arithmetic, marshalling of Go data into C
    memory, [%q] quoting, the byte order of the machine, and the order in
    which [range] walks a map. *)
Record Gotch : Type := mkGotch {
  DType : Type;
  DType_eq_dec : EqDecision DType;
  DType_Size : DType -> Z;
  DType_CKind : DType -> Z;
  DType_String : DType -> string;
  CKind2DType : Z -> DType;
  Uint8 : DType;
  Int64 : DType;
  Float : DType;
  FlattenDim : list Z -> Z;
  ElementCount : list Z -> Z;
  DataAsPtr : list Z -> error + list byte;
  GoData : Type;
  DataCheck : GoData -> DType * Z * option error;
  GoData_store : GoData -> list byte -> GoData;
  quote : string -> string;
  nativeEndian_little : bool;
  map_range : list string -> list string;
  map_range_perm : forall l, map_range l ≡ₚ l
}.

(** The native engine behind [libtch], with its state of type [E]: every
    entry point may change the state, and errors are left in a side channel
    that [GetAndResetLastErr] reads and clears. *)
Record Libtch (E : Type) : Type := mkLibtch {
  AtFree : Ctensor -> E -> E;
  AtDim : Ctensor -> E -> Z * E;
  AtShape : Ctensor -> list byte -> E -> list byte * E;
  AtDefined : Ctensor -> E -> bool * E;
  AtScalarType : Ctensor -> E -> Z * E;
  AtCopyData : Ctensor -> Z -> Z -> E -> list byte * E;
  AtTensorOfData : list byte -> list Z -> Z -> Z -> Z -> E -> Ctensor * E;
  AtNewTensor : E -> Ctensor * E;
  GetAndResetLastErr : E -> option string * E
}.

Arguments AtFree {E} _ _ _.
Arguments AtDim {E} _ _ _.
Arguments AtShape {E} _ _ _ _.
Arguments AtDefined {E} _ _ _.
Arguments AtScalarType {E} _ _ _.
Arguments AtCopyData {E} _ _ _ _ _.
Arguments AtTensorOfData {E} _ _ _ _ _ _ _.
Arguments AtNewTensor {E} _ _.
Arguments GetAndResetLastErr {E} _ _.

(** The process: the package variables of [ts], [gotch.Debug], the state of
    the native engine and the events so far. *)
Record World (E : Type) : Type := mkWorld {
  TensorCount : Z;
  AllocatedMem : Z;
  ExistingTensors : gset string;
  Debug : bool;
  engine : E;
  trace : list Event
}.

Arguments mkWorld {E} _ _ _ _ _ _.
Arguments TensorCount {E} _.
Arguments AllocatedMem {E} _.
Arguments ExistingTensors {E} _.
Arguments Debug {E} _.
Arguments engine {E} _.
Arguments trace {E} _.

(** A run either returns, or ends the process ([log.Fatal], a panic). *)
Inductive Outcome (E A : Type) : Type :=
  | Ok (a : A) (w : World E)
  | Fatal (msg : string) (w : World E).

Arguments Ok {E A} _ _.
Arguments Fatal {E A} _ _.

Definition M (E A : Type) : Type := World E -> Outcome E A.

Global Instance M_ret {E} : MRet (M E) := fun A a w => Ok a w.
Global Instance M_bind {E} : MBind (M E) := fun A B f m w =>
  match m w with
  | Ok a w' => f a w'
  | Fatal msg w' => Fatal msg w'
  end.

(** [TensorOptions] and the functional options that fill it. *)
Record TensorOptions (G : Gotch) : Type := mkTensorOptions {
  Name : string;
  OptDType : DType G;
  Quantized : bool
}.

Arguments mkTensorOptions {G} _ _ _.
Arguments Name {G} _.
Arguments OptDType {G} _.
Arguments Quantized {G} _.

Definition TensorOpt (G : Gotch) : Type := TensorOptions G -> TensorOptions G.

(** ** Bytes *)

Definition byte_val (b : byte) : Z := Z.of_N (Byte.to_N b).

(** An unsigned integer from its bytes, least significant first. *)
Fixpoint le_unsigned (bs : list byte) : Z :=
  match bs with
  | [] => 0
  | b :: r => byte_val b + 256 * le_unsigned r
  end.

(** [binary.Read] of one [int64] from eight bytes in the given order. *)
Definition decode_int64 (little : bool) (bs : list byte) : Z :=
  wrap_int64 (le_unsigned (if little then bs else rev bs)).

Fixpoint decode_int64s (little : bool) (n : nat) (bs : list byte) : list Z :=
  match n with
  | O => []
  | S n => decode_int64 little (take 8 bs) :: decode_int64s little n (drop 8 bs)
  end.

(** ** Events of a trace *)

Fixpoint native_calls (tr : list Event) : list Call :=
  match tr with
  | [] => []
  | EvNative c :: r => c :: native_calls r
  | _ :: r => native_calls r
  end.

(** The entries of the native free routine in a trace. *)
Fixpoint free_calls (tr : list Event) : list Call :=
  match tr with
  | [] => []
  | EvNative (CAtFree c) :: r => CAtFree c :: free_calls r
  | _ :: r => free_calls r
  end.

Definition is_AtFree (c : Call) : bool :=
  match c with CAtFree _ => true | _ => false end.

Fixpoint log_lines (tr : list Event) : list string :=
  match tr with
  | [] => []
  | EvLog m :: r => m :: log_lines r
  | _ :: r => log_lines r
  end.

Definition Var_eqb (u v : Var) : bool :=
  match u, v with
  | VTensorCount, VTensorCount | VAllocatedMem, VAllocatedMem
  | VExistingTensors, VExistingTensors => true
  | _, _ => false
  end.

(** The amounts added to a guarded counter, in order. *)
Fixpoint deltas (v : Var) (tr : list Event) : list Z :=
  match tr with
  | [] => []
  | EvAtomicAdd u d :: r =>
      if Var_eqb u v then d :: deltas v r else deltas v r
  | _ :: r => deltas v r
  end.

(** The writes to handle fields, in order: the wrapper and the new value. *)
Fixpoint handle_writes (tr : list Event) : list (string * Ctensor) :=
  match tr with
  | [] => []
  | EvSetHandle n c :: r => (n, c) :: handle_writes r
  | _ :: r => handle_writes r
  end.

(** The value of an [int64] counter after a run of [atomic.AddInt64]. *)
Definition add_all (start : Z) (ds : list Z) : Z :=
  foldl (fun a d => wrap_int64 (a + d)) start ds.

(** Lock discipline: every access to a guarded variable and every write of
    a handle field lies between a [Lock] and the next [Unlock]. *)
Fixpoint guarded (held : bool) (tr : list Event) : bool :=
  match tr with
  | [] => true
  | EvLock :: r => guarded true r
  | EvUnlock :: r => guarded false r
  | (EvRead _ | EvWrite _ | EvAtomicAdd _ _ | EvSetHandle _ _) :: r =>
      held && guarded held r
  | _ :: r => guarded held r
  end.

(** ** The operations of [tensor.go] *)

Section Operations.

Context {E : Type} (lib : Libtch E) (G : Gotch).

Local Existing Instance DType_eq_dec.

(** *** Primitive steps *)

Definition emit (e : Event) : M E unit := fun w =>
  Ok tt (mkWorld (TensorCount w) (AllocatedMem w) (ExistingTensors w)
           (Debug w) (engine w) (trace w ++ [e])).

(** One call into the engine: the event, then the engine's answer. *)
Definition native {A} (c : Call) (f : E -> A * E) : M E A := fun w =>
  let r := f (engine w) in
  Ok r.1 (mkWorld (TensorCount w) (AllocatedMem w) (ExistingTensors w)
            (Debug w) r.2 (trace w ++ [EvNative c])).

Definition lock_Lock : M E unit := emit EvLock.
Definition lock_Unlock : M E unit := emit EvUnlock.
Definition log_Printf (msg : string) : M E unit := emit (EvLog msg).
Definition log_Fatal {A} (msg : string) : M E A := fun w => Fatal msg w.
Definition panic {A} (msg : string) : M E A := fun w => Fatal msg w.
Definition C_free : M E unit := emit EvCFree.
Definition CMalloc (nbytes : Z) : M E unit := emit (EvCMalloc nbytes).
Definition SetFinalizer (ts : Tensor) (armed : bool) : M E unit :=
  emit (EvSetFinalizer (name ts) armed).

Definition gotch_Debug : M E bool := fun w => Ok (Debug w) w.

Definition read_TensorCount : M E Z := fun w =>
  Ok (TensorCount w)
     (mkWorld (TensorCount w) (AllocatedMem w) (ExistingTensors w)
        (Debug w) (engine w) (trace w ++ [EvRead VTensorCount])).

Definition read_AllocatedMem : M E Z := fun w =>
  Ok (AllocatedMem w)
     (mkWorld (TensorCount w) (AllocatedMem w) (ExistingTensors w)
        (Debug w) (engine w) (trace w ++ [EvRead VAllocatedMem])).

Definition read_ExistingTensors : M E (gset string) := fun w =>
  Ok (ExistingTensors w)
     (mkWorld (TensorCount w) (AllocatedMem w) (ExistingTensors w)
        (Debug w) (engine w) (trace w ++ [EvRead VExistingTensors])).

(** [ExistingTensors[n] = struct{}{}] and [delete(ExistingTensors, n)]. *)
Definition insert_ExistingTensors (n : string) : M E unit := fun w =>
  Ok tt (mkWorld (TensorCount w) (AllocatedMem w) ({[n]} ∪ ExistingTensors w)
           (Debug w) (engine w) (trace w ++ [EvWrite VExistingTensors])).

Definition delete_ExistingTensors (n : string) : M E unit := fun w =>
  Ok tt (mkWorld (TensorCount w) (AllocatedMem w) (ExistingTensors w ∖ {[n]})
           (Debug w) (engine w) (trace w ++ [EvWrite VExistingTensors])).

(** [atomic.AddInt64(&TensorCount, d)] and
    [atomic.AddInt64(&AllocatedMem, d)]. *)
Definition AddInt64_TensorCount (d : Z) : M E unit := fun w =>
  Ok tt (mkWorld (wrap_int64 (TensorCount w + d)) (AllocatedMem w)
           (ExistingTensors w) (Debug w) (engine w)
           (trace w ++ [EvAtomicAdd VTensorCount d])).

Definition AddInt64_AllocatedMem (d : Z) : M E unit := fun w =>
  Ok tt (mkWorld (TensorCount w) (wrap_int64 (AllocatedMem w + d))
           (ExistingTensors w) (Debug w) (engine w)
           (trace w ++ [EvAtomicAdd VAllocatedMem d])).

(** *** The entry points of [libtch] and [TorchErr] *)

Definition lib_AtFree (c : Ctensor) : M E unit :=
  native (CAtFree c) (fun e => (tt, AtFree lib c e)).

(** [lib.AtDim] returns a [uint64]. *)
Definition lib_AtDim (c : Ctensor) : M E Z :=
  native (CAtDim c) (fun e => let r := AtDim lib c e in (wrap_uint64 r.1, r.2)).

Definition lib_AtShape (c : Ctensor) (buf : list byte) : M E (list byte) :=
  native (CAtShape c) (AtShape lib c buf).

Definition lib_AtDefined (c : Ctensor) : M E bool :=
  native (CAtDefined c) (AtDefined lib c).

Definition lib_AtScalarType (c : Ctensor) : M E Z :=
  native (CAtScalarType c) (AtScalarType lib c).

Definition lib_AtCopyData (c : Ctensor) (numel elt_size : Z)
  : M E (list byte) :=
  native (CAtCopyData c numel elt_size) (AtCopyData lib c numel elt_size).

Definition lib_AtTensorOfData (data : list byte) (shape : list Z)
    (ndims elt_size kind : Z) : M E Ctensor :=
  native (CAtTensorOfData shape elt_size kind)
         (AtTensorOfData lib data shape ndims elt_size kind).


(** [TorchErr] reads and clears the engine's last error. *)
Definition TorchErr : M E (option error) :=
  native CGetAndResetLastErr (GetAndResetLastErr lib).

(** *** Queries on a tensor *)

(** [decodeSize]: [nsize] integers of type [int64] read from the C memory
    [mem] at [ptr].  The slice expression panics when its bound is out of
    range, and [binary.Read] fails, which is fatal here, when fewer than
    eight bytes per integer are there. *)
Definition decodeSize (mem : list byte) (nsize : Z) : M E (list Z) :=
  let nbytes := wrap_int64 (to_int nsize * to_int (DType_Size G (Int64 G))) in
  if (nbytes <? 0) || (2 ^ 30 <? nbytes) then
    panic "slice bounds out of range"
  else
    let dataSlice := take (Z.to_nat nbytes) mem in
    if len dataSlice <? 8 * nsize then log_Fatal "unexpected EOF"
    else mret (decode_int64s (nativeEndian_little G) (Z.to_nat nsize) dataSlice).

(** [Tensor.Size]. *)
Definition Size (ts : Tensor) : M E (list Z * option error) :=
  dim ← lib_AtDim (ctensor ts);
  if (dim <? 0) || (100 <? dim) then
    mret ([], Some ("Invalid dim: " +:+ fmt_d dim +:+ nl))
  else
    let sz := replicate (Z.to_nat dim) 0 in
    match DataAsPtr G sz with
    | inl err => mret ([], Some err)
    | inr buf =>
        mem ← lib_AtShape (ctensor ts) buf;
        err ← TorchErr;
        match err with
        | Some e => C_free;; mret ([], Some e)
        | None =>
            shape ← decodeSize mem dim;
            C_free;;
            mret (shape, None)
        end
    end.

(** [Tensor.MustSize]. *)
Definition MustSize (ts : Tensor) : M E (list Z) :=
  r ← Size ts;
  match r.2 with
  | Some e => log_Fatal e
  | None => mret r.1
  end.

(** [Tensor.Defined]. *)
Definition Defined (ts : Tensor) : M E (bool * option error) :=
  state ← lib_AtDefined (ctensor ts);
  err ← TorchErr;
  match err with
  | Some e => mret (false, Some e)
  | None => mret (state, None)
  end.

(** [Tensor.MustDefined]. *)
Definition MustDefined (ts : Tensor) : M E bool :=
  r ← Defined ts;
  match r.2 with
  | Some e => log_Fatal e
  | None => mret r.1
  end.

(** [Tensor.DType]. *)
Definition Tensor_DType (ts : Tensor) : M E (DType G) :=
  cint ← lib_AtScalarType (ctensor ts);
  mret (CKind2DType G cint).

(** [Tensor.Numel], a [uint]. *)
Definition Numel (ts : Tensor) : M E Z :=
  d ← MustDefined ts;
  if negb d then mret 0
  else
    shape ← MustSize ts;
    mret (to_uint (FlattenDim G shape)).

(** [Tensor.nbytes]: [int64(numel * ts.DType().Size())], the product
    taken in [uint]. *)
Definition nbytes (ts : Tensor) : M E Z :=
  numel ← Numel ts;
  if numel =? 0 then mret 0
  else
    dtype ← Tensor_DType ts;
    mret (wrap_int64 (wrap_uint64 (numel * DType_Size G dtype))).

(** *** Acquire *)

(** [newName]. *)
Definition newName (nameOpt : list string) : M E string :=
  match nameOpt with
  | n :: _ => mret n
  | [] =>
      cnt ← read_TensorCount;
      mret ("tensor_" +:+ fmt_09d cnt)
  end.

(** [newTensor].  While the lock is held the wrapper has no name yet, so
    the log line of the diagnostic mode quotes the empty string. *)
Definition newTensor (c : Ctensor) (nameOpt : list string) : M E Tensor :=
  let x := mkTensor "" c "" in
  lock_Lock;;
  AddInt64_TensorCount 1;;
  dbg ← gotch_Debug;
  (if (dbg : bool) then
     n ← nbytes x;
     AddInt64_AllocatedMem n;;
     log_Printf ("INFO: Added tensor " +:+ quote G (name x)
                 +:+ " - Allocated memory: " +:+ fmt_d n +:+ " bytes." +:+ nl)
   else mret tt);;
  nm ← newName nameOpt;
  reg ← read_ExistingTensors;
  nm ← (if decide (nm ∈ reg) then
          cnt ← read_TensorCount;
          mret (nm +:+ "_" +:+ fmt_09d cnt)
        else mret nm);
  insert_ExistingTensors nm;;
  lock_Unlock;;
  let x := mkTensor nm c "newTensor()" in
  SetFinalizer x true;;
  mret x.

(** [New], [NewTensor] and [FromCtensor]. *)
Definition New (c : Ctensor) (nameOpt : list string) : M E Tensor :=
  newTensor c nameOpt.


Definition FromCtensor (c : Ctensor) : M E Tensor := newTensor c [].

(** *** Release *)

(** [freeCTensor].  The deferred [lock.Unlock] runs last on every path
    that took the lock. *)
Definition freeCTensor (ts : Tensor) : M E (Tensor * option error) :=
  match ctensor ts with
  | None => mret (ts, None)
  | Some _ =>
      lock_Lock;;
      reg ← read_ExistingTensors;
      if decide (name ts ∈ reg) then
        dbg ← gotch_Debug;
        (if (dbg : bool) then
           r ← Size ts;
           let numel := to_uint (FlattenDim G r.1) in
           dtype ← Tensor_DType ts;
           let n := wrap_int64 (wrap_uint64 (numel * DType_Size G dtype)) in
           AddInt64_AllocatedMem (wrap_int64 (- n));;
           log_Printf ("INFO: Released tensor " +:+ quote G (name ts)
                       +:+ " - C memory(" +:+ fmt_d n +:+ " bytes)." +:+ nl)
         else mret tt);;
        lib_AtFree (ctensor ts);;
        err ← TorchErr;
        match err with
        | Some e =>
            lock_Unlock;;
            mret (ts, Some ("ERROR: failed to release tensor "
                            +:+ quote G (name ts) +:+ " - " +:+ e))
        | None =>
            delete_ExistingTensors (name ts);;
            emit (EvSetHandle (name ts) None);;
            SetFinalizer ts false;;
            lock_Unlock;;
            mret (set_ctensor None ts, None)
        end
      else
        log_Printf ("WARNING: Probably double free tensor "
                    +:+ quote G (name ts) +:+ ". Called from "
                    +:+ quote G (calledFrom ts) +:+ ". Just skipping..." +:+ nl);;
        lock_Unlock;;
        mret (ts, None)
  end.

(** [Tensor.Drop]. *)
Definition Drop (ts : Tensor) : M E (Tensor * option error) :=
  match ctensor ts with
  | None => mret (ts, None)
  | Some _ => freeCTensor (set_calledFrom "ts.Drop()" ts)
  end.

(** [Tensor.MustDrop]. *)
Definition MustDrop (ts : Tensor) : M E Tensor :=
  r ← Drop ts;
  match r.2 with
  | Some e => panic e
  | None => mret r.1
  end.

(** *** Leak report *)

Definition report (memUsed : Z) (tensors : list string) : string :=
  "============================= C MEMORY CHECK RESULT ==================================" +:+ nl
  +:+ ("C memory allocated not been released: " +:+ fmt_d memUsed +:+ " bytes" +:+ nl)
  +:+ ("Tensors not been released: ["
       +:+ join " " (quote G <$> tensors) +:+ "]" +:+ nl)
  +:+ ("======================================================================================" +:+ nl).

(** [CheckCMemLeak]. *)
Definition CheckCMemLeak : M E string :=
  lock_Lock;;
  reg ← read_ExistingTensors;
  let tensors := map_range G (elements reg) in
  memUsed ← read_AllocatedMem;
  lock_Unlock;;
  mret (report memUsed tensors).

(** *** Copying data out of a tensor *)

(** The bytes the engine wrote at the start of the destination. *)
Definition overwrite (written dst : list byte) : list byte :=
  take (List.length dst) (written ++ drop (List.length written) dst).

(** [Tensor.CopyDataUint8].  [numel] is a [uint]; the test compares
    [len(dst)] with [int(numel)]. *)
Definition CopyDataUint8 (ts : Tensor) (dst : list byte) (numel : Z)
  : M E (list byte * option error) :=
  if len dst <? to_int numel then
    mret (dst, Some ("CopyDataUint8 Error: length of destination slice data ("
                     +:+ fmt_d (len dst) +:+ ") is smaller than " +:+ nl
                     +:+ "number of elements to be copied ("
                     +:+ fmt_d numel +:+ ")"))
  else
    match dst with
    | [] => panic "index out of range [0] with length 0"
    | _ :: _ =>
        let dtype := Uint8 G in
        written ← lib_AtCopyData (ctensor ts) numel (DType_Size G dtype);
        err ← TorchErr;
        mret (overwrite written dst, err)
    end.

(** [Tensor.CopyData].  The error of [DataCheck] is dropped; on a type
    mismatch [ts.DType()] is asked a second time for the message. *)
Definition CopyData (ts : Tensor) (dst : GoData G) (numel : Z)
  : M E (GoData G * option error) :=
  let chk := DataCheck G dst in
  let dtype := chk.1.1 in
  let dlen := chk.1.2 in
  if dlen <? to_int numel then
    mret (dst, Some ("ts.CopyData() failed: length of destination slice data ("
                     +:+ fmt_d dlen +:+ ") is smaller than " +:+ nl
                     +:+ "number of elements to be copied ("
                     +:+ fmt_d numel +:+ ")"))
  else
    tdt ← Tensor_DType ts;
    if decide (tdt = dtype) then
      written ← lib_AtCopyData (ctensor ts) numel (DType_Size G dtype);
      err ← TorchErr;
      mret (GoData_store G dst written, err)
    else
      tdt' ← Tensor_DType ts;
      mret (dst, Some ("ts.CopyData() failed: Type mismatched: `dst` type: "
                       +:+ DType_String G dtype +:+ ", tensor DType: "
                       +:+ DType_String G tdt')).

(** *** Creating a tensor from bytes *)

Definition DefaultTensorOptions : TensorOptions G :=
  mkTensorOptions "" (Float G) false.

Definition WithName (v : string) : TensorOpt G :=
  fun o => mkTensorOptions v (OptDType o) (Quantized o).
Definition WithDType (v : DType G) : TensorOpt G :=
  fun o => mkTensorOptions (Name o) v (Quantized o).
Definition WithQuantized (v : bool) : TensorOpt G :=
  fun o => mkTensorOptions (Name o) (OptDType o) v.

(** [OfDataSize].  [binary.Write] of a byte slice into the buffer over
    the fresh C memory does not fail. *)
Definition OfDataSize (data : list byte) (shape : list Z) (dtype : DType G)
    (opts : list (TensorOpt G)) : M E (option Tensor * option error) :=
  let o := foldl (fun o opt => opt o) DefaultTensorOptions opts in
  let elementNum := ElementCount G shape in
  let nbytes := wrap_int64 (elementNum * to_int (DType_Size G dtype)) in
  if decide (nbytes = len data) then
    CMalloc nbytes;;
    c ← lib_AtTensorOfData data shape (to_uint (len shape))
          (DType_Size G dtype) (to_int (DType_CKind G dtype));
    err ← TorchErr;
    match err with
    | Some e => C_free;; mret (None, Some e)
    | None =>
        x ← newTensor c [Name o];
        C_free;;
        mret (Some x, None)
    end
  else
    mret (None, Some ("data and shape mismatched for dtype ("
                      +:+ DType_String G dtype +:+ "): byte data ("
                      +:+ fmt_d (len data) +:+ ") - shape ("
                      +:+ fmt_v_ints shape +:+ ")." +:+ nl)).

End Operations.

(** ** Shape of the traces *)

(** Whether the lock is held after a trace, given whether it was before. *)
Fixpoint held_after (held : bool) (tr : list Event) : bool :=
  match tr with
  | [] => held
  | EvLock :: r => held_after true r
  | EvUnlock :: r => held_after false r
  | _ :: r => held_after held r
  end.

(** Events of a query: calls into the engine other than the free routine,
    and management of scratch C memory. *)
Definition quiet (e : Event) : bool :=
  match e with
  | EvNative c => negb (is_AtFree c)
  | EvCFree | EvCMalloc _ => true
  | _ => false
  end.

(** ** Queries leave the bookkeeping alone *)

Definition final {E A} (o : Outcome E A) : World E :=
  match o with Ok _ w => w | Fatal _ w => w end.

(** The guarded variables and [gotch.Debug] agree in two worlds. *)
Definition same_vars {E} (w w' : World E) : Prop :=
  TensorCount w' = TensorCount w /\ AllocatedMem w' = AllocatedMem w /\
  ExistingTensors w' = ExistingTensors w /\ Debug w' = Debug w.

(** A computation that only asks the engine: whatever its outcome, the
    variables are as before and the trace grew by quiet events. *)
Definition query {E A} (m : M E A) : Prop :=
  forall w, same_vars w (final (m w)) /\
            exists tr, trace (final (m w)) = trace w ++ tr /\
                       forallb quiet tr = true.

(** ** Names and messages of the lifecycle *)

Section Names.

Context {E : Type} (G : Gotch).

(** The warning of [freeCTensor] for a name that is not registered. *)
Definition warning (ts : Tensor) : string :=
  "WARNING: Probably double free tensor "
    +:+ quote G (name ts) +:+ ". Called from "
    +:+ quote G (calledFrom ts) +:+ ". Just skipping..." +:+ nl.

(** The error of [freeCTensor] around the engine's message [e]. *)
Definition release_error (ts : Tensor) (e : error) : error :=
  "ERROR: failed to release tensor " +:+ quote G (name ts) +:+ " - " +:+ e.

(** The world of [newTensor] once the lock is taken and the counter
    incremented, where the diagnostic mode estimates the footprint. *)
Definition counted (w : World E) : World E :=
  final ((lock_Lock;; AddInt64_TensorCount 1) w).

(** The name [newName] picks when the counter is [cnt]. *)
Definition base_name (nameOpt : list string) (cnt : Z) : string :=
  match nameOpt with
  | n :: _ => n
  | [] => "tensor_" +:+ fmt_09d cnt
  end.

(** The name [newTensor] registers for the base name [base]. *)
Definition unique_name (reg : gset string) (base : string) (cnt : Z) : string :=
  if decide (base ∈ reg) then base +:+ "_" +:+ fmt_09d cnt else base.

End Names.

(** ** Programs over wrappers

    A client of the package creates wrappers and releases them, by
    [Drop] or through the finalizer that [newTensor] registers, which is
    [freeCTensor] itself; in between the engine works on the tensors.  The
    wrappers are numbered in the order of their creation. *)

Inductive How : Type := ByDrop | ByFinalizer.

Inductive Op (E : Type) : Type :=
  | OpNew (c : Ctensor) (nameOpt : list string)
  | OpRelease (how : How) (i : nat)
  | OpEngine (f : E -> E).

Arguments OpNew {E} _ _.
Arguments OpRelease {E} _ _.
Arguments OpEngine {E} _.

(** The wrappers created so far and what each release returned. *)
Definition Heap : Type := list Tensor * list (option error).



Fixpoint count_new {E} (ops : list (Op E)) : nat :=
  match ops with
  | [] => O
  | OpNew _ _ :: r => S (count_new r)
  | _ :: r => count_new r
  end.



(** The wrapper as a release sees it: [Drop] notes where it was called
    from before it hands a wrapper with a handle to [freeCTensor]. *)
Definition as_released (how : How) (ts : Tensor) : Tensor :=
  match how, ctensor ts with
  | ByDrop, Some _ => set_calledFrom "ts.Drop()" ts
  | _, _ => ts
  end.

Section Programs.

Context {E : Type} (lib : Libtch E) (G : Gotch).

Definition release (how : How) (ts : Tensor) : M E (Tensor * option error) :=
  match how with
  | ByDrop => Drop lib G ts
  | ByFinalizer => freeCTensor lib G ts
  end.

Definition engine_step (f : E -> E) : M E unit := fun w =>
  Ok tt (mkWorld (TensorCount w) (AllocatedMem w) (ExistingTensors w)
           (Debug w) (f (engine w)) (trace w)).

Definition run_op (op : Op E) (st : Heap) : M E Heap :=
  match op with
  | OpNew c nameOpt =>
      x ← newTensor lib G c nameOpt;
      mret (st.1 ++ [x], st.2)
  | OpRelease how i =>
      match st.1 !! i with
      | Some ts =>
          r ← release how ts;
          mret (<[i := r.1]> st.1, st.2 ++ [r.2])
      | None => mret st
      end
  | OpEngine f => engine_step f;; mret st
  end.

Fixpoint run_ops (ops : list (Op E)) (st : Heap) : M E Heap :=
  match ops with
  | [] => mret st
  | op :: r => st' ← run_op op st; run_ops r st'
  end.

End Programs.

(** What every run of a single operation has in common. *)
Definition framed {E A} (w : World E) (o : Outcome E A) : Prop :=
  match o with
  | Ok _ w' =>
      Debug w' = Debug w /\
      exists tr,
        trace w' = trace w ++ tr /\
        guarded false tr = true /\ held_after false tr = false /\
        AllocatedMem w' = add_all (AllocatedMem w) (deltas VAllocatedMem tr) /\
        (if Debug w then True else deltas VAllocatedMem tr = [])
  | Fatal _ _ => Debug w = true
  end.

(** The process before the package is initialised: the variables have
    their zero values and the map is empty. *)
Definition zero_world {E} (dbg : bool) (e : E) : World E :=
  mkWorld 0 0 ∅ dbg e [].

(** ** A reference host and a simulated engine

    One instance of the two interfaces, with which the operations run on
    concrete inputs: three element types with the sizes and codes of
    libtorch, shape arithmetic in [int], and an engine that keeps one
    shape and element type for all its tensors, remembers the handles it
    was asked to free, and raises an error in its free routine when told
    to. *)

Inductive RefDType : Type := RUint8 | RInt64 | RFloat | RInvalid.

Global Instance RefDType_eq_dec : EqDecision RefDType.
Proof. solve_decision. Defined.

Definition RefDType_Size (d : RefDType) : Z :=
  match d with RUint8 => 1 | RInt64 => 8 | RFloat => 4 | RInvalid => 0 end.

Definition RefDType_CKind (d : RefDType) : Z :=
  match d with RUint8 => 0 | RInt64 => 4 | RFloat => 6 | RInvalid => -1 end.

Definition RefDType_String (d : RefDType) : string :=
  match d with
  | RUint8 => "Uint8" | RInt64 => "Int64" | RFloat => "Float"
  | RInvalid => "Invalid"
  end.

Definition RefCKind2DType (c : Z) : RefDType :=
  if c =? 0 then RUint8
  else if c =? 4 then RInt64
  else if c =? 6 then RFloat
  else RInvalid.

(** The product of the dimensions, in [int]. *)
Definition product (shape : list Z) : Z :=
  foldl (fun n d => wrap_int64 (n * d)) 1 shape.

(** [n] bytes of an unsigned integer, least significant first. *)
Fixpoint le_bytes (n : nat) (v : Z) : list byte :=
  match n with
  | O => []
  | S n => default x00 (Byte.of_N (Z.to_N (v mod 256))) :: le_bytes n (v / 256)
  end.

Definition encode_int64 (z : Z) : list byte := le_bytes 8 (wrap_uint64 z).

Definition dq : string := String "034"%char EmptyString.

Definition RefGotch : Gotch :=
  {| DType := RefDType;
     DType_eq_dec := RefDType_eq_dec;
     DType_Size := RefDType_Size;
     DType_CKind := RefDType_CKind;
     DType_String := RefDType_String;
     CKind2DType := RefCKind2DType;
     Uint8 := RUint8;
     Int64 := RInt64;
     Float := RFloat;
     FlattenDim := product;
     ElementCount := product;
     DataAsPtr := fun sz => inr (mbind encode_int64 sz);
     GoData := list byte;
     DataCheck := fun d => (RUint8, len d, None);
     GoData_store := fun d written =>
       take (List.length d) (written ++ drop (List.length written) d);
     quote := fun s => dq +:+ s +:+ dq;
     nativeEndian_little := true;
     map_range := fun l => l;
     map_range_perm := fun l => Permutation_refl l |}.

Record Sim : Type := mkSim {
  sim_last_err : option string;
  sim_free_err : option string;
  sim_defined : bool;
  sim_shape : list Z;
  sim_kind : Z;
  sim_next : positive;
  sim_freed : list Ctensor
}.

Definition sim_raise (m : option string) (e : Sim) : Sim :=
  mkSim (match m with Some _ => m | None => sim_last_err e end)
        (sim_free_err e) (sim_defined e) (sim_shape e) (sim_kind e)
        (sim_next e) (sim_freed e).

Definition sim_fresh (e : Sim) : Ctensor * Sim :=
  (Some (sim_next e),
   mkSim (sim_last_err e) (sim_free_err e) (sim_defined e) (sim_shape e)
         (sim_kind e) (Pos.succ (sim_next e)) (sim_freed e)).


Definition SimLib : Libtch Sim :=
  {| AtFree := fun c e =>
       sim_raise (sim_free_err e)
         (mkSim (sim_last_err e) (sim_free_err e) (sim_defined e)
                (sim_shape e) (sim_kind e) (sim_next e) (sim_freed e ++ [c]));
     AtDim := fun c e => (len (sim_shape e), e);
     AtShape := fun c buf e => (mbind encode_int64 (sim_shape e), e);
     AtDefined := fun c e => (sim_defined e, e);
     AtScalarType := fun c e => (sim_kind e, e);
     AtCopyData := fun c numel elt e =>
       if numel =? product (sim_shape e)
       then (replicate (Z.to_nat (numel * elt)) x00, e)
       else ([], sim_raise (Some "target numel is incorrect") e);
     AtTensorOfData := fun data shape nd elt kind e => sim_fresh e;
     AtNewTensor := sim_fresh;
     GetAndResetLastErr := fun e =>
       (sim_last_err e,
        mkSim None (sim_free_err e) (sim_defined e) (sim_shape e)
              (sim_kind e) (sim_next e) (sim_freed e)) |}.

(** An engine at rest whose tensors are two floats, and one whose free
    routine raises. *)
Definition sim0 : Sim := mkSim None None true [2] 6 1%positive [].

(** A wrapper named [a] for the handle 1, the operation that creates it,
    and the world right after, from the zero values. *)
Definition new_a : Op Sim := OpNew (Some 1%positive) ["a"].
Definition ta : Tensor := mkTensor "a" (Some 1%positive) "newTensor()".
Definition w_a (dbg : bool) (e : Sim) : World Sim :=
  final (newTensor SimLib RefGotch (Some 1%positive) ["a"] (zero_world dbg e)).


(** ** More of [tensor.go]

    The functions of the file around the lifetime bookkeeping: the
    accessors on top of [Size], and the constructors and helpers that go
    through further entry points of the engine. *)

Section MoreOperations.

Context {E : Type} (lib : Libtch E) (G : Gotch).

(** [Tensor.Dim]. *)
Definition Dim (ts : Tensor) : M E Z :=
  dim ← lib_AtDim lib (ctensor ts);
  err ← TorchErr lib;
  match err with
  | Some e => log_Fatal e
  | None => mret dim
  end.

(** [Tensor.Size1]: the only entry of a shape of length one. *)
Definition Size1 (ts : Tensor) : M E (Z * option error) :=
  r ← Size lib G ts;
  match r.2 with
  | Some e => mret (0, Some e)
  | None =>
      if decide (len r.1 = 1) then
        match r.1 !! 0%nat with
        | Some d => mret (d, None)
        | None => panic "index out of range [0] with length 0"
        end
      else mret (0, Some ("Expected one dim, got " +:+ fmt_d (len r.1) +:+ nl))
  end.

(** [Tensor.Size2], [Tensor.Size3] and [Tensor.Size4]. *)
Definition Size2 (ts : Tensor) : M E (list Z * option error) :=
  r ← Size lib G ts;
  match r.2 with
  | Some e => mret ([], Some e)
  | None =>
      if decide (len r.1 = 2) then mret (r.1, None)
      else mret ([], Some ("Expected two dims, got " +:+ fmt_d (len r.1) +:+ nl))
  end.

Definition Size3 (ts : Tensor) : M E (list Z * option error) :=
  r ← Size lib G ts;
  match r.2 with
  | Some e => mret ([], Some e)
  | None =>
      if decide (len r.1 = 3) then mret (r.1, None)
      else mret ([], Some ("Expected three dims, got " +:+ fmt_d (len r.1) +:+ nl))
  end.

Definition Size4 (ts : Tensor) : M E (list Z * option error) :=
  r ← Size lib G ts;
  match r.2 with
  | Some e => mret ([], Some e)
  | None =>
      if decide (len r.1 = 4) then mret (r.1, None)
      else mret ([], Some ("Expected four dims, got " +:+ fmt_d (len r.1) +:+ nl))
  end.

(** [MustOfDataSize]. *)
Definition MustOfDataSize (data : list byte) (size : list Z) (dtype : DType G)
    (opts : list (TensorOpt G)) : M E (option Tensor) :=
  r ← OfDataSize lib G data size dtype opts;
  match r.2 with
  | Some e => log_Fatal e
  | None => mret r.1
  end.

(** [Tensor.ZeroPad2d].  [ConstantPadNd] is one of the generated
    operations of the package; the wrapper comes back as the callee left
    it. *)
Definition ZeroPad2d
    (ConstantPadNd : Tensor -> list Z -> bool ->
                     M E (Tensor * option Tensor * option error))
    (ts : Tensor) (left right top bottom : Z) (del : bool)
  : M E (Tensor * option Tensor * option error) :=
  dim ← Dim ts;
  if negb (dim =? 4) then
    shape ← MustSize lib G ts;
    mret (ts, None, Some ("Expected a 4 dimension tensor, got "
                          +:+ fmt_v_ints shape +:+ nl))
  else ConstantPadNd ts [left; right; top; bottom] del.

End MoreOperations.

(** *** Further entry points of the engine

    [lib.Cscalar], and the entry points of [libtch] behind cloning,
    loading, padding and the gradient mode.  [AtLoadCallback] hands back
    the named handles that its callback collects in [lib.LoadData]; the
    padding routine hands back the handle it writes through its first
    argument. *)

Definition Cscalar : Type := option positive.

Record LibtchOps (E : Type) : Type := mkLibtchOps {
  AtShallowClone : Ctensor -> E -> Ctensor * E;
  AtGet : Ctensor -> Z -> E -> Ctensor * E;
  AtLoad : string -> E -> Ctensor * E;
  AtLoadCallback : string -> E -> list (string * Ctensor) * E;
  AtLoadCallbackWithDevice : string -> Z -> E -> list (string * Ctensor) * E;
  AtGradSetEnabled : Z -> E -> Z * E;
  AtoConstantPadNd : Ctensor -> list Z -> Z -> Cscalar -> E -> Ctensor * E
}.

Arguments AtShallowClone {E} _ _ _.
Arguments AtGet {E} _ _ _ _.
Arguments AtLoad {E} _ _ _.
Arguments AtLoadCallback {E} _ _ _.
Arguments AtLoadCallbackWithDevice {E} _ _ _ _.
Arguments AtGradSetEnabled {E} _ _ _.
Arguments AtoConstantPadNd {E} _ _ _ _ _ _.

(** [NamedTensor], with its fields [Name] and [Tensor]. *)
Record NamedTensor : Type := mkNamedTensor {
  NamedTensor_Name : string;
  NamedTensor_Tensor : Tensor
}.

(** [NoGradGuard]. *)
Record NoGradGuard : Type := mkNoGradGuard { enabled : bool }.

Section EngineOperations.

Context {E : Type} (lib : Libtch E) (ops : LibtchOps E) (G : Gotch).

(** A call of one of these entry points: the engine goes from one state
    to the next.  The trace keeps to the events of the bookkeeping. *)
Definition engine_call {A} (f : E -> A * E) : M E A := fun w =>
  let r := f (engine w) in
  Ok r.1 (mkWorld (TensorCount w) (AllocatedMem w) (ExistingTensors w)
            (Debug w) r.2 (trace w)).

(** [Tensor.ShallowClone]. *)
Definition ShallowClone (ts : Tensor) : M E (option Tensor * option error) :=
  c ← engine_call (AtShallowClone ops (ctensor ts));
  err ← TorchErr lib;
  match err with
  | Some e => mret (None, Some e)
  | None =>
      x ← newTensor lib G c [name ts +:+ "_cloned"];
      mret (Some x, None)
  end.

(** [Tensor.Get]. *)
Definition Get (ts : Tensor) (index : Z) : M E (option Tensor * option error) :=
  c ← engine_call (AtGet ops (ctensor ts) index);
  err ← TorchErr lib;
  match err with
  | Some e => mret (None, Some e)
  | None =>
      x ← newTensor lib G c [];
      mret (Some x, None)
  end.

(** [Load]. *)
Definition Load (path : string) (nameOpt : list string)
  : M E (option Tensor * option error) :=
  c ← engine_call (AtLoad ops path);
  err ← TorchErr lib;
  match err with
  | Some e => mret (None, Some e)
  | None =>
      x ← newTensor lib G c nameOpt;
      mret (Some x, None)
  end.

(** The loop of [LoadMulti] over [data.NamedCtensors]. *)
Fixpoint wrap_loaded (data : list (string * Ctensor))
    (namedTensors : list NamedTensor) : M E (list NamedTensor) :=
  match data with
  | [] => mret namedTensors
  | v :: rest =>
      x ← newTensor lib G v.2 [v.1];
      wrap_loaded rest (namedTensors ++ [mkNamedTensor v.1 x])
  end.

(** [LoadMulti] and [LoadMultiWithDevice]; the device goes by its C
    code.  The pointer store [lib.PStore], through which the callback of
    the engine finds [data], is part of what [AtLoadCallback] stands
    for. *)
Definition LoadMulti (path : string)
  : M E (list NamedTensor * option error) :=
  data ← engine_call (AtLoadCallback ops path);
  err ← TorchErr lib;
  match err with
  | Some e => mret ([], Some e)
  | None =>
      namedTensors ← wrap_loaded data [];
      mret (namedTensors, None)
  end.

Definition LoadMultiWithDevice (path : string) (device_CInt : Z)
  : M E (list NamedTensor * option error) :=
  data ← engine_call (AtLoadCallbackWithDevice ops path device_CInt);
  err ← TorchErr lib;
  match err with
  | Some e => mret ([], Some e)
  | None =>
      namedTensors ← wrap_loaded data [];
      mret (namedTensors, None)
  end.

(** [GradSetEnabled]: the previous mode, from the code the engine
    returns; a code other than 0 and 1 leaves [state] at its zero value. *)
Definition GradSetEnabled (b : bool) : M E (bool * option error) :=
  let cbool := if b then 1 else 0 in
  cretVal ← engine_call (AtGradSetEnabled ops cbool);
  err ← TorchErr lib;
  match err with
  | Some e => mret (false, Some e)
  | None =>
      mret (if cretVal =? 0 then false
            else if cretVal =? 1 then true
            else false, None)
  end.

(** [MustGradSetEnabled]. *)
Definition MustGradSetEnabled (b : bool) : M E bool :=
  r ← GradSetEnabled b;
  match r.2 with
  | Some e => log_Fatal e
  | None => mret r.1
  end.

(** [NoGrad] and [NoGrad1]; the closure is a computation of its own. *)
Definition NoGrad (fn : M E unit) : M E unit :=
  MustGradSetEnabled false;;
  fn;;
  MustGradSetEnabled true;;
  mret tt.


(** [NewNoGradGuard], [noGradGuardInit], [NoGradGuard.Drop] and
    [NoGradGuard.Enable]; the last two return the guard they updated. *)
Definition noGradGuardInit : M E NoGradGuard :=
  b ← MustGradSetEnabled false;
  mret (mkNoGradGuard b).

Definition NewNoGradGuard : M E NoGradGuard := noGradGuardInit.

Definition NoGradGuard_Drop (ngg : NoGradGuard) : M E NoGradGuard :=
  let ngg := mkNoGradGuard true in
  MustGradSetEnabled (enabled ngg);;
  mret ngg.

Definition NoGradGuard_Enable (ngg : NoGradGuard) : M E NoGradGuard :=
  let ngg := mkNoGradGuard false in
  MustGradSetEnabled (enabled ngg);;
  mret ngg.

(** [Tensor.ConstantPadNdWithVal], for a [value] other than [nil], by
    its [cscalar].  The deferred [ts.MustDrop] runs when the results are
    set, on both ways out; the wrapper comes back as the call left it. *)
Definition ConstantPadNdWithVal (ts : Tensor) (pad : list Z) (value : Cscalar)
    (del : bool) : M E (Tensor * option Tensor * option error) :=
  emit (EvCMalloc 0);;
  c ← engine_call (AtoConstantPadNd ops (ctensor ts) pad (len pad) value);
  err ← TorchErr lib;
  r ← match err with
      | Some e => mret (None, Some e)
      | None =>
          x ← newTensor lib G c [];
          mret (Some x, None)
      end;
  if del then
    ts' ← MustDrop lib G ts;
    mret (ts', r.1, r.2)
  else mret (ts, r.1, r.2).

End EngineOperations.

(** *** The lock, the engine at rest, bytes and characters *)

(** The mutex is not reentrant: [Lock] comes only when the lock is free,
    [Unlock] only when it is held. *)
Fixpoint lock_ok (held : bool) (tr : list Event) : bool :=
  match tr with
  | [] => true
  | EvLock :: r => negb held && lock_ok true r
  | EvUnlock :: r => held && lock_ok false r
  | _ :: r => lock_ok held r
  end.

(** What a run does with the lock: the events it adds take and give back
    the lock in turn, and a run that returns has given it back. *)
Definition locked {E A} (w : World E) (o : Outcome E A) : Prop :=
  exists tr,
    trace (final o) = trace w ++ tr /\ lock_ok false tr = true /\
    match o with
    | Ok _ _ => held_after false tr = false
    | Fatal _ _ => True
    end.

(** The queries about the tensor behind [c] leave the engine in the state
    [e]: it is at rest, and answers them the same way each time. *)
Definition steady {E} (lib : Libtch E) (c : Ctensor) (e : E) : Prop :=
  (AtDefined lib c e).2 = e /\ (AtDim lib c e).2 = e /\
  (forall buf, (AtShape lib c buf e).2 = e) /\
  (AtScalarType lib c e).2 = e /\ (GetAndResetLastErr lib e).2 = e.

(** [binary.Write] of [int64] values in the given byte order, which
    [decodeSize] reads back. *)
Definition store_int64 (little : bool) (z : Z) : list byte :=
  if little then encode_int64 z else rev (encode_int64 z).

Definition store_int64s (little : bool) (l : list Z) : list byte :=
  mbind (store_int64 little) l.

(** Whether a character occurs in a string. *)
Fixpoint has_char (c : ascii) (s : string) : bool :=
  match s with
  | EmptyString => false
  | String d r => bool_decide (d = c) || has_char c r
  end.

(** *** The simulated engine with a gradient mode

    The engine of above next to a flag for the gradient mode; cloning,
    indexing, loading and padding hand out fresh handles, a file holds two
    tensors. *)

Definition SimG : Type := (Sim * bool)%type.

Definition on_core {A} (f : Sim -> A * Sim) (e : SimG) : A * SimG :=
  let r := f e.1 in (r.1, (r.2, e.2)).

Definition SimLibG : Libtch SimG :=
  {| AtFree := fun c e => (AtFree SimLib c e.1, e.2);
     AtDim := fun c => on_core (AtDim SimLib c);
     AtShape := fun c buf => on_core (AtShape SimLib c buf);
     AtDefined := fun c => on_core (AtDefined SimLib c);
     AtScalarType := fun c => on_core (AtScalarType SimLib c);
     AtCopyData := fun c numel elt => on_core (AtCopyData SimLib c numel elt);
     AtTensorOfData := fun data shape nd elt kind =>
       on_core (AtTensorOfData SimLib data shape nd elt kind);
     AtNewTensor := on_core (AtNewTensor SimLib);
     GetAndResetLastErr := on_core (GetAndResetLastErr SimLib) |}.

Definition sim_load (e : Sim) : list (string * Ctensor) * Sim :=
  let r1 := sim_fresh e in
  let r2 := sim_fresh r1.2 in
  ([("weight", r1.1); ("bias", r2.1)], r2.2).

Definition SimOps : LibtchOps SimG :=
  {| AtShallowClone := fun c => on_core sim_fresh;
     AtGet := fun c i => on_core sim_fresh;
     AtLoad := fun path => on_core sim_fresh;
     AtLoadCallback := fun path => on_core sim_load;
     AtLoadCallbackWithDevice := fun path dev => on_core sim_load;
     AtGradSetEnabled := fun c e => (Z.b2z e.2, (e.1, negb (c =? 0)));
     AtoConstantPadNd := fun c pad n v => on_core sim_fresh |}.

(** The engine with an error pending, and one whose tensors are
    undefined; the two with the gradient mode; a second wrapper that goes
    by the name [a]. *)
Definition sim_pending : Sim :=
  mkSim (Some "engine failed") None true [2] 6 1%positive [].
Definition sim_undefined : Sim := mkSim None None false [2] 6 1%positive [].
Definition simg (g : bool) : SimG := (sim0, g).
Definition simg_err (g : bool) : SimG := (sim_pending, g).
Definition ta2 : Tensor := mkTensor "a" (Some 2%positive) "newTensor()".
(** * Properties *)

(** ** Integers and formatting *)

Section Formatting.

Lemma wrap_int64_range z : is_int64 (wrap_int64 z).
Proof.
  unfold is_int64, wrap_int64.
  pose proof (Z.mod_pos_bound (z + 2 ^ 63) (2 ^ 64)). lia.
Qed.

Lemma wrap_int64_id z : is_int64 z -> wrap_int64 z = z.
Proof.
  unfold is_int64, wrap_int64. intros H.
  rewrite Z.mod_small by lia. lia.
Qed.

Lemma wrap_uint64_range z : is_uint64 (wrap_uint64 z).
Proof. unfold is_uint64, wrap_uint64. apply Z.mod_pos_bound. lia. Qed.

Lemma wrap_int64_succ_ne z : is_int64 z -> wrap_int64 (z + 1) <> z.
Proof.
  unfold is_int64, wrap_int64. intros H.
  destruct (decide (z = 2 ^ 63 - 1)) as [-> | Hne].
  - vm_compute. discriminate.
  - rewrite Z.mod_small by lia. lia.
Qed.

Lemma wrap_int64_add_l a b : wrap_int64 (wrap_int64 a + b) = wrap_int64 (a + b).
Proof.
  unfold wrap_int64. f_equal.
  replace ((a + 2 ^ 63) mod 2 ^ 64 - 2 ^ 63 + b + 2 ^ 63)
    with ((a + 2 ^ 63) mod 2 ^ 64 + b) by lia.
  rewrite Zplus_mod_idemp_l. f_equal. lia.
Qed.

(** A counter that went up by less than [2 ^ 64] is not where it was. *)
Lemma wrap_int64_add_ne z m :
  is_int64 z -> 0 < m < 2 ^ 64 -> wrap_int64 (z + m) <> z.
Proof.
  unfold is_int64, wrap_int64. intros Hz Hm Heq.
  pose proof (Z.div_mod (z + m + 2 ^ 63) (2 ^ 64)) as Hdm.
  assert ((z + m + 2 ^ 63) mod 2 ^ 64 = z + 2 ^ 63) as Hmod by lia.
  rewrite Hmod in Hdm.
  assert (m = 2 ^ 64 * ((z + m + 2 ^ 63) / 2 ^ 64)) as Hq by lia.
  assert (0 < (z + m + 2 ^ 63) / 2 ^ 64 < 1) by lia. lia.
Qed.

Lemma pretty_N_go_head x s :
  (0 < x)%N ->
  exists c r, pretty_N_go x s = String c r /\ c <> "0"%char.
Proof.
  revert s. induction (N.lt_wf_0 x) as [x _ IH]. intros s Hx.
  rewrite pretty_N_go_step by done.
  destruct (decide (x `div` 10 = 0)%N) as [Hz | Hnz].
  - rewrite Hz, pretty_N_go_0. eexists _, _. split; [done |].
    assert (x < 10)%N as Hlt.
    { apply N.div_small_iff in Hz; lia. }
    rewrite N.mod_small by done.
    assert (x = 1 \/ x = 2 \/ x = 3 \/ x = 4 \/ x = 5 \/ x = 6
            \/ x = 7 \/ x = 8 \/ x = 9)%N as Hc by lia.
    destruct Hc as [-> | [-> | [-> | [-> | [-> | [-> | [-> | [-> | ->]]]]]]]];
      done.
  - apply IH; [apply N.div_lt; lia | by apply N.neq_0_lt_0].
Qed.

Lemma pretty_N_head (n : N) :
  n <> 0%N -> exists c r, pretty n = String c r /\ c <> "0"%char.
Proof.
  intros Hn. unfold pretty, pretty_N.
  destruct (decide (n = 0%N)); [done |].
  apply pretty_N_go_head. lia.
Qed.

Lemma pretty_N_not_dash (n : N) r : pretty n <> String "-"%char r.
Proof.
  unfold pretty, pretty_N. destruct (decide (n = 0%N)); [done |].
  apply (pretty_N_go_ne_dash n "" r). done.
Qed.

Lemma lstrip0_zeros k s : lstrip0 (zeros k +:+ s) = lstrip0 s.
Proof. induction k as [| k IH]; simpl; done. Qed.

Lemma lstrip0_pretty (n : N) :
  lstrip0 (pretty n) = if decide (n = 0%N) then EmptyString else pretty n.
Proof.
  destruct (decide (n = 0%N)) as [-> | Hn]; [done |].
  destruct (pretty_N_head n Hn) as (c & r & -> & Hc).
  simpl. destruct c as [[] [] [] [] [] [] [] []]; try done.
Qed.

Lemma zpad_inj w w' (n m : N) :
  zpad w (pretty n) = zpad w' (pretty m) -> n = m.
Proof.
  unfold zpad. intros Heq.
  apply (f_equal lstrip0) in Heq.
  rewrite !lstrip0_zeros, !lstrip0_pretty in Heq.
  destruct (decide (n = 0%N)) as [-> | Hn], (decide (m = 0%N)) as [-> | Hm];
    try done.
  - destruct (pretty_N_head m Hm) as (c & r & Hp & _). congruence.
  - destruct (pretty_N_head n Hn) as (c & r & Hp & _). congruence.
  - by apply (inj pretty).
Qed.

Lemma zpad_not_dash w (n : N) r : zpad w (pretty n) <> String "-"%char r.
Proof.
  unfold zpad. destruct (w - String.length (pretty n))%nat as [| k]; simpl.
  - apply pretty_N_not_dash.
  - discriminate.
Qed.

(** [%09d] never prints two integers the same way. *)
Lemma fmt_09d_inj v v' : fmt_09d v = fmt_09d v' -> v = v'.
Proof.
  unfold fmt_09d.
  destruct (Z.ltb_spec v 0), (Z.ltb_spec v' 0); intros Heq.
  - simpl in Heq. injection Heq as Heq. apply zpad_inj in Heq. lia.
  - symmetry in Heq. by apply zpad_not_dash in Heq.
  - by apply zpad_not_dash in Heq.
  - apply zpad_inj in Heq. lia.
Qed.

Lemma string_length_app (s t : string) :
  String.length (s +:+ t) = (String.length s + String.length t)%nat.
Proof. induction s as [| c s IH]; simpl; [done | by rewrite IH]. Qed.



End Formatting.

Example fmt_09d_pos : fmt_09d 42 = "000000042".
Proof. reflexivity. Qed.
Example fmt_09d_neg : fmt_09d (-42) = "-00000042".
Proof. reflexivity. Qed.
Example fmt_09d_wide : fmt_09d 12345678901 = "12345678901".
Proof. reflexivity. Qed.

(** ** Traces *)

Section Traces.

Lemma native_calls_app tr1 tr2 :
  native_calls (tr1 ++ tr2) = native_calls tr1 ++ native_calls tr2.
Proof.
  induction tr1 as [| e tr1 IH]; [done |].
  destruct e; simpl; by rewrite ?IH.
Qed.

Lemma free_calls_app tr1 tr2 :
  free_calls (tr1 ++ tr2) = free_calls tr1 ++ free_calls tr2.
Proof.
  induction tr1 as [| e tr1 IH]; [done |].
  destruct e as [| | [] | | | | | | | |]; simpl; by rewrite ?IH.
Qed.

Lemma log_lines_app tr1 tr2 :
  log_lines (tr1 ++ tr2) = log_lines tr1 ++ log_lines tr2.
Proof.
  induction tr1 as [| e tr1 IH]; [done |].
  destruct e; simpl; by rewrite ?IH.
Qed.

Lemma deltas_app v tr1 tr2 :
  deltas v (tr1 ++ tr2) = deltas v tr1 ++ deltas v tr2.
Proof.
  induction tr1 as [| e tr1 IH]; [done |].
  destruct e; simpl; rewrite ?IH; try done. by case_match.
Qed.

Lemma handle_writes_app tr1 tr2 :
  handle_writes (tr1 ++ tr2) = handle_writes tr1 ++ handle_writes tr2.
Proof.
  induction tr1 as [| e tr1 IH]; [done |].
  destruct e; simpl; by rewrite ?IH.
Qed.

Lemma add_all_app a ds1 ds2 :
  add_all a (ds1 ++ ds2) = add_all (add_all a ds1) ds2.
Proof. unfold add_all. apply foldl_app. Qed.

Lemma guarded_app h tr1 tr2 :
  guarded h (tr1 ++ tr2) = guarded h tr1 && guarded (held_after h tr1) tr2.
Proof.
  revert h. induction tr1 as [| e tr1 IH]; intros h; [done |].
  destruct e; simpl; rewrite ?IH; try done; by rewrite andb_assoc.
Qed.

Lemma held_after_app h tr1 tr2 :
  held_after h (tr1 ++ tr2) = held_after (held_after h tr1) tr2.
Proof.
  revert h. induction tr1 as [| e tr1 IH]; intros h; [done |].
  destruct e; simpl; by rewrite ?IH.
Qed.

Lemma quiet_free_calls tr : forallb quiet tr = true -> free_calls tr = [].
Proof.
  induction tr as [| e tr IH]; [done |]. simpl.
  intros [He Htr]%andb_prop. specialize (IH Htr).
  destruct e as [| | [] | | | | | | | |]; done.
Qed.

Lemma quiet_log_lines tr : forallb quiet tr = true -> log_lines tr = [].
Proof.
  induction tr as [| e tr IH]; [done |]. simpl.
  intros [He Htr]%andb_prop. destruct e; try done; by apply IH.
Qed.

Lemma quiet_deltas v tr : forallb quiet tr = true -> deltas v tr = [].
Proof.
  induction tr as [| e tr IH]; [done |]. simpl.
  intros [He Htr]%andb_prop. destruct e; try done; by apply IH.
Qed.

Lemma quiet_handle_writes tr :
  forallb quiet tr = true -> handle_writes tr = [].
Proof.
  induction tr as [| e tr IH]; [done |]. simpl.
  intros [He Htr]%andb_prop. destruct e; try done; by apply IH.
Qed.

Lemma quiet_guarded h tr : forallb quiet tr = true -> guarded h tr = true.
Proof.
  revert h. induction tr as [| e tr IH]; intros h; [done |]. simpl.
  intros [He Htr]%andb_prop. destruct e; try done; by apply IH.
Qed.

Lemma quiet_held_after h tr : forallb quiet tr = true -> held_after h tr = h.
Proof.
  revert h. induction tr as [| e tr IH]; intros h; [done |]. simpl.
  intros [He Htr]%andb_prop. destruct e; try done; by apply IH.
Qed.

Lemma quiet_app tr1 tr2 :
  forallb quiet tr1 = true -> forallb quiet tr2 = true ->
  forallb quiet (tr1 ++ tr2) = true.
Proof. intros H1 H2. rewrite forallb_app. by rewrite H1, H2. Qed.

End Traces.

(** ** Queries *)

Section Queries.

Context {E : Type} (lib : Libtch E) (G : Gotch).

Lemma same_vars_refl (w : World E) : same_vars w w.
Proof. by repeat split. Qed.

Lemma same_vars_trans (w1 w2 w3 : World E) :
  same_vars w1 w2 -> same_vars w2 w3 -> same_vars w1 w3.
Proof. unfold same_vars. intros (? & ? & ? & ?) (? & ? & ? & ?). naive_solver congruence. Qed.

Lemma query_ret {A} (a : A) : query (mret a : M E A).
Proof.
  intros w. split; [apply same_vars_refl |].
  exists []. by rewrite app_nil_r.
Qed.

Lemma query_fatal {A} msg : query (log_Fatal msg : M E A).
Proof.
  intros w. split; [apply same_vars_refl |].
  exists []. by rewrite app_nil_r.
Qed.

Lemma query_bind {A B} (m : M E A) (f : A -> M E B) :
  query m -> (forall a, query (f a)) -> query (m ≫= f).
Proof.
  intros Hm Hf w. destruct (Hm w) as (Hv & tr & Htr & Hq).
  unfold mbind, M_bind. destruct (m w) as [a w1 | msg w1]; simpl in *.
  - destruct (Hf a w1) as (Hv' & tr' & Htr' & Hq'). split.
    + eapply same_vars_trans; eauto.
    + exists (tr ++ tr'). rewrite Htr', Htr, app_assoc.
      split; [done | by apply quiet_app].
  - split; [done |]. by exists tr.
Qed.

Lemma query_emit e : quiet e = true -> query (emit (E := E) e).
Proof.
  intros He w. split; [by repeat split |].
  exists [e]. simpl. by rewrite He.
Qed.

Lemma query_native {A} c (f : E -> A * E) :
  is_AtFree c = false -> query (native c f).
Proof.
  intros Hc w. split; [by repeat split |].
  exists [EvNative c]. simpl. by rewrite Hc.
Qed.

Lemma query_TorchErr : query (TorchErr lib).
Proof. by apply query_native. Qed.

Lemma query_decodeSize mem nsize : query (decodeSize (E := E) G mem nsize).
Proof.
  unfold decodeSize. repeat case_match;
    first [apply query_ret | apply query_fatal].
Qed.

Lemma query_Size ts : query (Size lib G ts).
Proof.
  unfold Size. apply query_bind; [by apply query_native |]. intros dim.
  case_match; [apply query_ret |].
  case_match; [apply query_ret |].
  apply query_bind; [by apply query_native |]. intros mem.
  apply query_bind; [apply query_TorchErr |]. intros [e |].
  - apply query_bind; [by apply query_emit | intros; apply query_ret].
  - apply query_bind; [apply query_decodeSize |]. intros shape.
    apply query_bind; [by apply query_emit | intros; apply query_ret].
Qed.

Lemma query_MustSize ts : query (MustSize lib G ts).
Proof.
  unfold MustSize. apply query_bind; [apply query_Size |].
  intros [shape [e |]]; [apply query_fatal | apply query_ret].
Qed.

Lemma query_Defined ts : query (Defined lib ts).
Proof.
  unfold Defined. apply query_bind; [by apply query_native |]. intros st.
  apply query_bind; [apply query_TorchErr |].
  intros [e |]; apply query_ret.
Qed.

Lemma query_MustDefined ts : query (MustDefined lib ts).
Proof.
  unfold MustDefined. apply query_bind; [apply query_Defined |].
  intros [st [e |]]; [apply query_fatal | apply query_ret].
Qed.

Lemma query_Tensor_DType ts : query (Tensor_DType lib G ts).
Proof.
  unfold Tensor_DType. apply query_bind; [by apply query_native |].
  intros; apply query_ret.
Qed.

Lemma query_Numel ts : query (Numel lib G ts).
Proof.
  unfold Numel. apply query_bind; [apply query_MustDefined |].
  intros []; simpl; [| apply query_ret].
  apply query_bind; [apply query_MustSize | intros; apply query_ret].
Qed.

Lemma query_nbytes ts : query (nbytes lib G ts).
Proof.
  unfold nbytes. apply query_bind; [apply query_Numel |]. intros numel.
  case_match; [apply query_ret |].
  apply query_bind; [apply query_Tensor_DType | intros; apply query_ret].
Qed.

End Queries.

(** ** What acquire and release do to the bookkeeping *)

Ltac mstep :=
  unfold mbind, M_bind, mret, M_ret, lock_Lock, lock_Unlock, log_Printf,
    SetFinalizer, C_free, CMalloc, emit, native, lib_AtFree, TorchErr,
    read_ExistingTensors, read_TensorCount, read_AllocatedMem,
    insert_ExistingTensors, delete_ExistingTensors,
    AddInt64_TensorCount, AddInt64_AllocatedMem, gotch_Debug; simpl.

Ltac trace_norm := rewrite <- ?app_assoc; simpl.

Ltac trace_facts :=
  simpl;
  rewrite ?guarded_app, ?held_after_app, ?free_calls_app, ?deltas_app,
    ?log_lines_app, ?handle_writes_app; simpl;
  rewrite ?quiet_guarded, ?quiet_held_after, ?quiet_free_calls,
    ?quiet_deltas, ?quiet_log_lines, ?quiet_handle_writes by done; simpl.

Ltac frame_of Hq :=
  let Hv := fresh "Hv" in
  let tr := fresh "trq" in
  let Htr := fresh "Htrq" in
  let Hquiet := fresh "Hquiet" in
  destruct Hq as (Hv & tr & Htr & Hquiet);
  destruct Hv as (?HTC & ?HAM & ?HET & ?HDb).

Section Lifecycle.

Context {E : Type} (lib : Libtch E) (G : Gotch).

(** The four ways through [freeCTensor]: the handle is already [nil]; the
    name is not registered; the engine reports an error after the free
    routine; the wrapper is released. *)
Lemma freeCTensor_spec ts (w : World E) :
  match freeCTensor lib G ts w with
  | Fatal _ w' =>
      Debug w = true /\ is_Some (ctensor ts) /\ name ts ∈ ExistingTensors w
  | Ok r w' =>
      TensorCount w' = TensorCount w /\ Debug w' = Debug w /\
      exists tr,
        trace w' = trace w ++ tr /\
        guarded false tr = true /\ held_after false tr = false /\
        AllocatedMem w' = add_all (AllocatedMem w) (deltas VAllocatedMem tr) /\
        deltas VTensorCount tr = [] /\
        (if Debug w then True else deltas VAllocatedMem tr = []) /\
        match ctensor ts with
        | None => r = (ts, None) /\ tr = [] /\ w' = w
        | Some h =>
            if decide (name ts ∈ ExistingTensors w) then
              free_calls tr = [CAtFree (Some h)] /\
              match r.2 with
              | Some e =>
                  r.1 = ts /\ ExistingTensors w' = ExistingTensors w /\
                  handle_writes tr = [] /\
                  exists e0, e = release_error G ts e0
              | None =>
                  r.1 = set_ctensor None ts /\
                  ExistingTensors w' = ExistingTensors w ∖ {[name ts]} /\
                  handle_writes tr = [(name ts, None)]
              end
            else
              r = (ts, None) /\ free_calls tr = [] /\
              ExistingTensors w' = ExistingTensors w /\
              log_lines tr = [warning G ts] /\
              deltas VAllocatedMem tr = [] /\
              handle_writes tr = []
        end
  end.
Proof.
  unfold freeCTensor. destruct (ctensor ts) as [h |] eqn:Hc.
  2:{ mstep. split; [done | split; [done |]]. exists []. rewrite app_nil_r.
      repeat (split; [done |]). split; [by destruct (Debug w) | done]. }
  mstep. destruct (decide (name ts ∈ ExistingTensors w)) as [Hin | Hnin].
  2:{ mstep. split; [done | split; [done |]]. eexists. trace_norm.
      split; [done |]. repeat (split; [done |]).
      split; [by destruct (Debug w) | done]. }
  mstep. destruct (Debug w) eqn:Hd.
  - match goal with |- context [Size lib G ts ?w1] =>
      pose proof (query_Size lib G ts w1) as Hq;
      destruct (Size lib G ts w1) as [a wS | msg wS] end;
      simpl in *; [| done].
    frame_of Hq. simpl in HTC, HAM, HET, HDb.
    match goal with |- context [GetAndResetLastErr lib ?e] =>
      destruct (GetAndResetLastErr lib e) as [[e' |] eng'] end; simpl;
      rewrite ?Htrq, ?HTC, ?HAM, ?HET, ?HDb.
    + split; [done | split; [done |]]. eexists. trace_norm. split; [done |].
      trace_facts. repeat (split; [done |]). by eexists.
    + split; [done | split; [done |]]. eexists. trace_norm. split; [done |].
      trace_facts. by repeat (split; [done |]).
  - match goal with |- context [GetAndResetLastErr lib ?e] =>
      destruct (GetAndResetLastErr lib e) as [[e' |] eng'] end; simpl.
    + split; [done | split; [done |]]. eexists. trace_norm. split; [done |].
      trace_facts. repeat (split; [done |]). by eexists.
    + split; [done | split; [done |]]. eexists. trace_norm. split; [done |].
      trace_facts. by repeat (split; [done |]).
Qed.

(** [newTensor]: the name it registers, the counters, and its trace. *)
Lemma newTensor_spec c nameOpt (w : World E) :
  let cnt := wrap_int64 (TensorCount w + 1) in
  let nm := unique_name (ExistingTensors w) (base_name nameOpt cnt) cnt in
  match newTensor lib G c nameOpt w with
  | Ok x w' =>
      x = mkTensor nm c "newTensor()" /\
      TensorCount w' = cnt /\
      ExistingTensors w' = {[nm]} ∪ ExistingTensors w /\
      Debug w' = Debug w /\
      exists tr,
        trace w' = trace w ++ tr /\
        guarded false tr = true /\ held_after false tr = false /\
        free_calls tr = [] /\ handle_writes tr = [] /\
        deltas VTensorCount tr = [1] /\
        AllocatedMem w' = add_all (AllocatedMem w) (deltas VAllocatedMem tr) /\
        if Debug w then
          exists n wq,
            nbytes lib G (mkTensor "" c "") (counted w) = Ok n wq /\
            deltas VAllocatedMem tr = [n]
        else deltas VAllocatedMem tr = []
  | Fatal msg w' =>
      Debug w = true /\
      nbytes lib G (mkTensor "" c "") (counted w) = Fatal msg w'
  end.
Proof.
  intros cnt nm. subst cnt nm.
  unfold newTensor, counted, unique_name, base_name.
  mstep. destruct (Debug w) eqn:Hd.
  - match goal with |- context [nbytes lib G ?x ?w1] =>
      pose proof (query_nbytes lib G x w1) as Hq;
      destruct (nbytes lib G x w1) as [n wS | msg wS] end;
      simpl in *; [| done].
    frame_of Hq. simpl in HTC, HAM, HET, HDb.
    destruct nameOpt as [| n0 rest]; mstep; rewrite ?HET, ?HTC;
      case_decide; mstep; rewrite ?Htrq, ?HTC, ?HAM, ?HET, ?HDb;
      (repeat (split; [done |])); eexists; trace_norm; (split; [done |]);
      trace_facts; (repeat (split; [done |])); by eexists _, _.
  - destruct nameOpt as [| n0 rest]; mstep;
      case_decide; mstep;
      (repeat (split; [done |])); eexists; trace_norm; (split; [done |]);
      trace_facts; by repeat (split; [done |]).
Qed.

End Lifecycle.

(** ** Programs: frame and registry invariant *)

Section ProgramLemmas.

Context {E : Type} (lib : Libtch E) (G : Gotch).

Lemma release_eq how ts (w : World E) :
  release lib G how ts w = freeCTensor lib G (as_released how ts) w.
Proof.
  unfold release, as_released, Drop.
  destruct how; [| done]. destruct (ctensor ts) eqn:Hc; [done |].
  unfold freeCTensor. by rewrite Hc.
Qed.

Lemma as_released_name how ts : name (as_released how ts) = name ts.
Proof. unfold as_released. by destruct how, (ctensor ts). Qed.

Lemma as_released_ctensor how ts : ctensor (as_released how ts) = ctensor ts.
Proof.
  unfold as_released. destruct how; [| done].
  by destruct (ctensor ts) eqn:Hc.
Qed.

Lemma newTensor_framed c nameOpt (w : World E) :
  framed w (newTensor lib G c nameOpt w).
Proof.
  pose proof (newTensor_spec lib G c nameOpt w) as H. simpl in H.
  unfold framed. destruct (newTensor lib G c nameOpt w) as [x w' | msg w'].
  - destruct H as (_ & _ & _ & HD & tr & Htr & Hg & Hh & _ & _ & _ & HA & Hd).
    split; [done |]. exists tr. repeat (split; [done |]).
    by destruct (Debug w).
  - by destruct H.
Qed.

Lemma release_framed how ts (w : World E) :
  framed w (release lib G how ts w).
Proof.
  rewrite release_eq.
  pose proof (freeCTensor_spec lib G (as_released how ts) w) as H.
  unfold framed.
  destruct (freeCTensor lib G (as_released how ts) w) as [r w' | msg w'].
  - destruct H as (_ & HD & tr & Htr & Hg & Hh & HA & _ & Hd & _).
    split; [done |]. by exists tr.
  - by destruct H.
Qed.

Lemma framed_bind {A B} (m : M E A) (f : A -> M E B) (w : World E) :
  framed w (m w) ->
  (forall a w1, m w = Ok a w1 -> framed w1 (f a w1)) ->
  framed w ((m ≫= f) w).
Proof.
  unfold mbind, M_bind. intros Hm Hf.
  destruct (m w) as [a w1 | msg w1]; [| done].
  specialize (Hf a w1 eq_refl). unfold framed in *.
  destruct Hm as (HD1 & tr1 & Htr1 & Hg1 & Hh1 & HA1 & Hd1).
  destruct (f a w1) as [b w2 | msg w2].
  - destruct Hf as (HD2 & tr2 & Htr2 & Hg2 & Hh2 & HA2 & Hd2).
    split; [congruence |]. exists (tr1 ++ tr2).
    rewrite Htr2, Htr1, app_assoc, guarded_app, held_after_app, deltas_app,
      add_all_app, Hg1, Hh1, Hg2, Hh2, HA2, HA1.
    repeat (split; [done |]).
    rewrite HD1 in Hd2. destruct (Debug w); [done |]. by rewrite Hd1, Hd2.
  - congruence.
Qed.

Lemma framed_ret {A} (a : A) (w : World E) : framed w (Ok a w).
Proof.
  split; [done |]. exists []. rewrite app_nil_r.
  repeat (split; [done |]). by destruct (Debug w).
Qed.

Lemma run_op_framed op st (w : World E) : framed w (run_op lib G op st w).
Proof.
  destruct op as [c nameOpt | how i | f]; simpl.
  - apply framed_bind; [apply newTensor_framed | intros; apply framed_ret].
  - destruct (st.1 !! i) as [ts |]; [| exact (framed_ret st w)].
    apply framed_bind; [apply release_framed | intros; apply framed_ret].
  - split; [done |]. exists []. simpl. rewrite app_nil_r.
    repeat (split; [done |]). by destruct (Debug w).
Qed.

Lemma run_ops_framed ops : forall st (w : World E),
  framed w (run_ops lib G ops st w).
Proof.
  induction ops as [| op ops IH]; intros st w; simpl.
  - exact (framed_ret st w).
  - apply framed_bind; [apply run_op_framed | intros; apply IH].
Qed.


End ProgramLemmas.

(** ** Programs: the registry follows the pending wrappers *)

Section ProgramRegistry.

Context {E : Type} (lib : Libtch E) (G : Gotch).



End ProgramRegistry.

(** * The claims *)

Section Claims.

Context {E : Type} (lib : Libtch E) (G : Gotch).

Lemma decode_int64s_length little n bs :
  List.length (decode_int64s little n bs) = n.
Proof.
  revert bs. induction n as [| n IH]; intros bs; simpl; [done |].
  by rewrite IH.
Qed.

Lemma decodeSize_length mem nsize (w : World E) shape w' :
  decodeSize G mem nsize w = Ok shape w' ->
  List.length shape = Z.to_nat nsize /\ w' = w.
Proof.
  unfold decodeSize. repeat case_match; try done.
  intros [= <- <-]. by rewrite decode_int64s_length.
Qed.

(** C10.  Let [dim] be what the native dimension query returns, as the
    [uint64] it is.  [dim] is never negative, so the first half of the test
    of [Size] never fires.  When [dim] exceeds 100, [Size] returns no shape
    and the error [Invalid dim], and the only event of the call is the
    dimension query: the native shape routine is not entered.  In every
    case the shape that [Size] returns has at most 100 entries. *)
Theorem Size_dim_guard ts (w : World E) :
  let dim := wrap_uint64 (AtDim lib (ctensor ts) (engine w)).1 in
  (dim <? 0) = false /\
  match Size lib G ts w with
  | Ok r w' =>
      len r.1 <= 100 /\
      if 100 <? dim then
        r = ([], Some ("Invalid dim: " +:+ fmt_d dim +:+ nl)) /\
        trace w' = trace w ++ [EvNative (CAtDim (ctensor ts))]
      else len r.1 = dim \/ r.1 = []
  | Fatal _ _ => dim <= 100
  end.
Proof.
  intros dim.
  assert (0 <= dim < 2 ^ 64) as Hdim by apply wrap_uint64_range.
  split; [apply Z.ltb_ge; lia |].
  unfold Size, lib_AtDim. mstep. fold dim.
  replace (dim <? 0) with false by (symmetry; apply Z.ltb_ge; lia). simpl.
  destruct (Z.ltb_spec 100 dim) as [Hbig | Hsmall].
  - mstep. split; [done | split; [done |]]. done.
  - destruct (DataAsPtr G (replicate (Z.to_nat dim) 0)) as [err | buf].
    + mstep. split; [done | by right].
    + unfold lib_AtShape. mstep.
      match goal with |- context [GetAndResetLastErr lib ?e] =>
        destruct (GetAndResetLastErr lib e) as [[e' |] eng'] end; simpl.
      * split; [done | by right].
      * match goal with |- context [decodeSize G ?m ?d ?w1] =>
          destruct (decodeSize G m d w1) as [shape w2 | msg w2] eqn:Hdec end;
          simpl; [| done].
        apply decodeSize_length in Hdec as [Hlen _].
        unfold len. rewrite Hlen. split; [lia | left; lia].
Qed.


(** Without overflow the counter is the old one plus one. *)
Lemma newTensor_count_succ c nameOpt (w : World E) x w' :
  is_int64 (TensorCount w) -> TensorCount w < 2 ^ 63 - 1 ->
  newTensor lib G c nameOpt w = Ok x w' ->
  TensorCount w' = TensorCount w + 1.
Proof.
  intros Hr Hmax Hrun.
  pose proof (newTensor_spec lib G c nameOpt w) as H. rewrite Hrun in H.
  simpl in H. destruct H as (_ & -> & _).
  apply wrap_int64_id. unfold is_int64 in *. lia.
Qed.



(** A release of a wrapper whose handle is [nil] does nothing at all. *)
Lemma release_cleared how ts (w : World E) :
  ctensor ts = None -> release lib G how ts w = Ok (ts, None) w.
Proof.
  intros Hc. unfold release, Drop, freeCTensor. rewrite Hc. by destruct how.
Qed.





(** [CheckCMemLeak] reads the registry and the byte counter between
    [Lock] and [Unlock] and changes nothing. *)
Lemma CheckCMemLeak_spec (w : World E) :
  exists w',
    CheckCMemLeak G w =
      Ok (report G (AllocatedMem w)
            (map_range G (elements (ExistingTensors w)))) w' /\
    same_vars w w' /\ engine w' = engine w /\
    trace w' = trace w ++ [EvLock; EvRead VExistingTensors;
                           EvRead VAllocatedMem; EvUnlock].
Proof.
  unfold CheckCMemLeak. mstep. eexists. split; [done |].
  split; [by repeat split |]. split; [done |]. by trace_norm.
Qed.


(** C9.  With [gotch.Debug] off, an acquire returns and leaves
    [AllocatedMem] as it is, and so does a release; hence after any program
    of acquires, releases and engine activity that starts with the counter
    at zero, however many wrappers are still live, the counter is zero and
    the leak report prints zero bytes. *)
Theorem no_debug_no_bytes ops st (w : World E) :
  Debug w = false -> AllocatedMem w = 0 ->
  (forall c nameOpt, exists x w',
     newTensor lib G c nameOpt w = Ok x w' /\ AllocatedMem w' = AllocatedMem w) /\
  (forall how ts, exists r w',
     release lib G how ts w = Ok r w' /\ AllocatedMem w' = AllocatedMem w) /\
  exists st' w',
    run_ops lib G ops st w = Ok st' w' /\ AllocatedMem w' = 0 /\
    exists names w'', CheckCMemLeak G w' = Ok (report G 0 names) w''.
Proof.
  intros Hd Hz.
  assert (forall A (o : Outcome E A), framed w o ->
            exists a w', o = Ok a w' /\ AllocatedMem w' = AllocatedMem w) as Hfr.
  { intros A [a w' | msg w'] Hf; simpl in Hf; [| congruence].
    destruct Hf as (_ & tr & _ & _ & _ & HA & Hdl). rewrite Hd in Hdl.
    exists a, w'. split; [done |]. by rewrite HA, Hdl. }
  split; [intros; apply Hfr, newTensor_framed |].
  split; [intros; apply Hfr, release_framed |].
  destruct (Hfr _ _ (run_ops_framed lib G ops st w)) as (st' & w' & Hrun & HA).
  exists st', w'. split; [done |]. split; [congruence |].
  destruct (CheckCMemLeak_spec w') as (w'' & Hrep & _).
  eexists _, w''. rewrite Hrep, HA, Hz. done.
Qed.


(** The length checks of the copy routines and of [OfDataSize], where the
    conversion to [int] is exact: the error comes back in the world the call
    started in, so nothing was asked of the engine. *)
Lemma CopyDataUint8_short ts dst numel (w : World E) :
  0 <= numel < 2 ^ 63 -> len dst < numel ->
  exists e, CopyDataUint8 lib G ts dst numel w = Ok (dst, Some e) w.
Proof.
  intros Hn Hlt. unfold CopyDataUint8, to_int.
  rewrite wrap_int64_id by (unfold is_int64; lia).
  destruct (Z.ltb_spec (len dst) numel); [| lia]. by eexists.
Qed.

Lemma CopyData_short ts dst numel (w : World E) :
  0 <= numel < 2 ^ 63 -> (DataCheck G dst).1.2 < numel ->
  exists e, CopyData lib G ts dst numel w = Ok (dst, Some e) w.
Proof.
  intros Hn Hlt. unfold CopyData, to_int.
  rewrite wrap_int64_id by (unfold is_int64; lia).
  destruct (Z.ltb_spec (DataCheck G dst).1.2 numel); [| lia]. by eexists.
Qed.

Lemma OfDataSize_mismatch data shape dtype opts (w : World E) :
  wrap_int64 (ElementCount G shape * to_int (DType_Size G dtype)) <> len data ->
  exists e, OfDataSize lib G data shape dtype opts w = Ok (None, Some e) w.
Proof.
  intros Hne. unfold OfDataSize. rewrite decide_False by done. by eexists.
Qed.

(** From [2 ^ 63] on, the conversion of a [uint64] to [int] is negative. *)
Lemma wrap_int64_high z : 2 ^ 63 <= z < 2 ^ 64 -> wrap_int64 z = z - 2 ^ 64.
Proof.
  intros Hz. unfold wrap_int64.
  replace (z + 2 ^ 63) with (z - 2 ^ 63 + 1 * 2 ^ 64) by lia.
  rewrite Z.mod_add by lia. rewrite Z.mod_small by lia. lia.
Qed.

(** C6.  The test of [CopyDataUint8] compares [len(dst)] with
    [int(numel)].  For [numel] from [2 ^ 63] on the conversion is negative:
    the destination is shorter than the requested element count, and yet
    no error is returned before the engine is called; the call of
    [lib.AtCopyData] and the error query are the events of the run. *)
Theorem CopyDataUint8_huge_numel ts b dst numel (w : World E) :
  2 ^ 63 <= numel < 2 ^ 64 ->
  len (b :: dst) < 2 ^ 63 ->
  len (b :: dst) < numel /\
  exists r w',
    CopyDataUint8 lib G ts (b :: dst) numel w = Ok r w' /\
    trace w' = trace w ++
      [EvNative (CAtCopyData (ctensor ts) numel (DType_Size G (Uint8 G)));
       EvNative CGetAndResetLastErr].
Proof.
  intros Hn Hlen. split; [lia |].
  unfold CopyDataUint8, to_int. rewrite wrap_int64_high by done.
  assert (0 <= len (b :: dst)) as Hpos by (unfold len; lia).
  destruct (Z.ltb_spec (len (b :: dst)) (numel - 2 ^ 64)); [lia |].
  unfold lib_AtCopyData. mstep. eexists _, _. split; [done |].
  by trace_norm.
Qed.

End Claims.

(** ** Runs on the reference host and the simulated engine *)

Lemma CopyDataUint8_huge_numel_witness :
  2 ^ 63 <= 2 ^ 63 < 2 ^ 64 /\ len [x00] < 2 ^ 63 /\ len [x00] < 2 ^ 63 /\
  native_calls
    (trace (final (CopyDataUint8 SimLib RefGotch ta [x00] (2 ^ 63)
                     (zero_world false sim0)))) =
    [CAtCopyData (Some 1%positive) (2 ^ 63) 1; CGetAndResetLastErr].
Proof.
  assert (2 ^ 63 <= 2 ^ 63 < 2 ^ 64) as H1 by (vm_compute; split; congruence).
  assert (len [x00] < 2 ^ 63) as H2 by (vm_compute; reflexivity).
  split; [exact H1 |]. split; [exact H2 |].
  destruct (CopyDataUint8_huge_numel SimLib RefGotch ta x00 [] (2 ^ 63)
              (zero_world false sim0) H1 H2) as (H3 & r & w' & Hrun & Htr).
  split; [exact H3 |]. rewrite Hrun. simpl. rewrite Htr. reflexivity.
Defined.






Lemma no_debug_no_bytes_witness :
  let w := zero_world false sim0 in
  Debug w = false /\ AllocatedMem w = 0 /\
  exists st' w',
    run_ops SimLib RefGotch [new_a] ([], []) w = Ok st' w' /\
    AllocatedMem w' = 0 /\
    exists names w'',
      CheckCMemLeak RefGotch w' = Ok (report RefGotch 0 names) w''.
Proof.
  intros w.
  assert (Debug w = false) as H1 by reflexivity.
  assert (AllocatedMem w = 0) as H2 by reflexivity.
  split; [exact H1 |]. split; [exact H2 |].
  destruct (no_debug_no_bytes SimLib RefGotch [new_a] ([], []) w H1 H2)
    as (_ & _ & Hrun).
  exact Hrun.
Defined.

(** ** Where the claims as stated fail *)




(** * Further properties of the code *)

(** ** Characters of the printed names *)

Section Characters.

Lemma has_char_app c (s t : string) :
  has_char c (s +:+ t) = has_char c s || has_char c t.
Proof.
  induction s as [| d s IH]; simpl; [done |].
  by rewrite IH, orb_assoc.
Qed.

Lemma has_char_zeros c k : c <> "0"%char -> has_char c (zeros k) = false.
Proof.
  intros Hc. induction k as [| k IH]; simpl; [done |].
  rewrite IH, orb_false_r. apply bool_decide_eq_false. congruence.
Qed.

Lemma pretty_N_char_digit (x : N) :
  (x < 10)%N -> pretty_N_char x <> "_"%char /\ pretty_N_char x <> "-"%char.
Proof.
  intros Hx.
  assert (x = 0 \/ x = 1 \/ x = 2 \/ x = 3 \/ x = 4 \/ x = 5 \/ x = 6
          \/ x = 7 \/ x = 8 \/ x = 9)%N as Hc by lia.
  destruct Hc as [-> | [-> | [-> | [-> | [-> | [-> | [-> | [-> | [-> | ->]]]]]]]]];
    done.
Qed.

Lemma pretty_N_go_underscore x s :
  has_char "_" (pretty_N_go x s) = has_char "_" s.
Proof.
  revert s. induction (N.lt_wf_0 x) as [x _ IH]. intros s.
  destruct (decide (x = 0)%N) as [-> | Hx]; [by rewrite pretty_N_go_0 |].
  rewrite pretty_N_go_step by lia.
  rewrite IH by (apply N.div_lt; lia). simpl.
  destruct (pretty_N_char_digit (x `mod` 10)) as [Hu _];
    [apply N.mod_lt; lia |].
  by rewrite bool_decide_eq_false_2.
Qed.

Lemma pretty_N_underscore (n : N) : has_char "_" (pretty n) = false.
Proof.
  unfold pretty, pretty_N. destruct (decide (n = 0%N)); [done |].
  by rewrite pretty_N_go_underscore.
Qed.

(** [%09d] prints digits and a sign, never an underscore. *)
Lemma fmt_09d_underscore v : has_char "_" (fmt_09d v) = false.
Proof.
  unfold fmt_09d, zpad. destruct (v <? 0).
  - rewrite !has_char_app, has_char_zeros, pretty_N_underscore by done. done.
  - rewrite has_char_app, has_char_zeros, pretty_N_underscore by done. done.
Qed.

(** Two strings cut at their first underscore have the same head. *)
Lemma underscore_split (s1 s2 t1 t2 : string) :
  has_char "_" s1 = false -> has_char "_" s2 = false ->
  s1 +:+ "_" +:+ t1 = s2 +:+ "_" +:+ t2 -> s1 = s2.
Proof.
  revert s2. induction s1 as [| c s1 IH]; intros [| d s2]; simpl.
  - done.
  - intros _ [Hd _]%orb_false_elim [= <- _].
    by rewrite bool_decide_eq_true_2 in Hd.
  - intros [Hc _]%orb_false_elim _ [= -> _].
    by rewrite bool_decide_eq_true_2 in Hc.
  - intros [_ H1]%orb_false_elim [_ H2]%orb_false_elim [= -> Heq].
    f_equal. by apply IH.
Qed.

Lemma has_char_eq c (s t : string) : s = t -> has_char c s = has_char c t.
Proof. by intros ->. Qed.

End Characters.

(** ** Names, the registry and the counter *)

Section Registry.

Context {E : Type} (lib : Libtch E) (G : Gotch).

(** A program moves the counter by the number of wrappers it creates,
    whatever it releases. *)
Lemma run_ops_counter ops : forall st (w : World E) st' w',
  run_ops lib G ops st w = Ok st' w' ->
  wrap_int64 (TensorCount w') =
    wrap_int64 (TensorCount w + Z.of_nat (count_new ops)).
Proof.
  induction ops as [| op ops IH]; intros st w st' w' Hrun; simpl in *.
  - injection Hrun as _ <-. f_equal. lia.
  - unfold mbind, M_bind in Hrun.
    destruct op as [c nameOpt | how i | f]; simpl in Hrun.
    + unfold mbind, M_bind in Hrun.
      pose proof (newTensor_spec lib G c nameOpt w) as Hspec. simpl in Hspec.
      destruct (newTensor lib G c nameOpt w) as [x w1 |]; [| done].
      destruct Hspec as (_ & HTC & _). simpl in Hrun.
      rewrite (IH _ _ _ _ Hrun), HTC, wrap_int64_add_l. f_equal. lia.
    + destruct (st.1 !! i) as [ts |]; simpl in Hrun.
      * unfold mbind, M_bind in Hrun. rewrite release_eq in Hrun.
        pose proof (freeCTensor_spec lib G (as_released how ts) w) as Hspec.
        destruct (freeCTensor lib G (as_released how ts) w) as [r w1 |];
          [| done].
        destruct Hspec as (HTC & _). simpl in Hrun.
        by rewrite (IH _ _ _ _ Hrun), HTC.
      * by rewrite (IH _ _ _ _ Hrun).
    + unfold mbind, M_bind, engine_step in Hrun. simpl in Hrun.
      by rewrite (IH _ _ _ _ Hrun).
Qed.

(** A release on the way of the warning: the handle is held, the name is
    not registered. *)
Lemma release_unregistered how ts h (w : World E) :
  ctensor ts = Some h -> name ts ∉ ExistingTensors w ->
  exists w' tr,
    release lib G how ts w = Ok (as_released how ts, None) w' /\
    trace w' = trace w ++ tr /\
    free_calls tr = [] /\ log_lines tr = [warning G (as_released how ts)] /\
    ExistingTensors w' = ExistingTensors w.
Proof.
  intros Hc Hnin. rewrite release_eq.
  pose proof (freeCTensor_spec lib G (as_released how ts) w) as S.
  destruct (freeCTensor lib G (as_released how ts) w) as [r w' | msg w'].
  - destruct S as (_ & _ & tr & Htr & _ & _ & _ & _ & _ & Hcase).
    rewrite as_released_ctensor, as_released_name, Hc,
      (decide_False _ _ Hnin) in Hcase.
    destruct Hcase as (-> & Hf & Hreg & Hlog & _). by exists w', tr.
  - destruct S as (_ & _ & Hin). by rewrite as_released_name in Hin.
Qed.

(** X1.  An acquire adds exactly the name of the new wrapper to the
    registry.  That name is the base name, or the base name with an
    underscore and the counter; it was in the registry before only when
    the base name and the name with the counter were both taken, and then
    the new wrapper shares its entry with an older one. *)
Theorem acquire_registers c nameOpt (w : World E) x w' :
  newTensor lib G c nameOpt w = Ok x w' ->
  let cnt := wrap_int64 (TensorCount w + 1) in
  let base := base_name nameOpt cnt in
  ExistingTensors w' = {[name x]} ∪ ExistingTensors w /\
  (name x = base \/ name x = base +:+ "_" +:+ fmt_09d cnt) /\
  (name x ∈ ExistingTensors w <->
   base ∈ ExistingTensors w /\
   base +:+ "_" +:+ fmt_09d cnt ∈ ExistingTensors w).
Proof.
  intros Hrun cnt base.
  pose proof (newTensor_spec lib G c nameOpt w) as S. rewrite Hrun in S.
  simpl in S. destruct S as (-> & _ & Hreg & _). simpl.
  fold cnt base in Hreg |- *. split; [done |].
  unfold unique_name. case_decide as Hb.
  - split; [by right |]. split; [by intros ? | by intros [_ ?]].
  - split; [by left |]. split; [done | by intros [? _]].
Qed.

(** X2.  Two wrappers acquired without a name get different names,
    whatever the program does between the two acquires (acquires with or
    without names, releases, work of the engine), as long as it creates
    fewer than [2 ^ 64 - 1] wrappers. *)
Theorem auto_names_distinct c1 c2 mid st (w0 : World E) x1 w1 st' w1' x2 w2 :
  newTensor lib G c1 [] w0 = Ok x1 w1 ->
  Z.of_nat (count_new mid) < 2 ^ 64 - 1 ->
  run_ops lib G mid st w1 = Ok st' w1' ->
  newTensor lib G c2 [] w1' = Ok x2 w2 ->
  name x1 <> name x2.
Proof.
  intros H1 Hfew Hmid H2.
  pose proof (newTensor_spec lib G c1 [] w0) as S1.
  pose proof (newTensor_spec lib G c2 [] w1') as S2.
  rewrite H1 in S1. rewrite H2 in S2. simpl in S1, S2.
  destruct S1 as (-> & HTC1 & _). destruct S2 as (-> & _). simpl.
  pose proof (run_ops_counter _ _ _ _ _ Hmid) as Hcnt.
  set (cnt1 := wrap_int64 (TensorCount w0 + 1)) in *.
  set (cnt2 := wrap_int64 (TensorCount w1' + 1)) in *.
  assert (cnt2 <> cnt1) as Hne.
  { assert (cnt2 = wrap_int64 (cnt1 + (Z.of_nat (count_new mid) + 1))) as ->.
    { subst cnt2. rewrite <- wrap_int64_add_l, Hcnt, HTC1, wrap_int64_add_l.
      f_equal. lia. }
    apply wrap_int64_add_ne; [apply wrap_int64_range | lia]. }
  assert (fmt_09d cnt1 <> fmt_09d cnt2) as Hf
    by (intros Heq%fmt_09d_inj; congruence).
  pose proof (fmt_09d_underscore cnt1) as Hu1.
  pose proof (fmt_09d_underscore cnt2) as Hu2.
  unfold unique_name. repeat case_decide; simpl; intros [= Heq];
    simpl in Heq.
  - by apply underscore_split in Heq.
  - apply (has_char_eq "_") in Heq.
    rewrite !has_char_app, Hu1, Hu2 in Heq. simpl in Heq. done.
  - apply (has_char_eq "_") in Heq.
    rewrite !has_char_app, Hu1, Hu2 in Heq. simpl in Heq. done.
  - done.
Qed.

Lemma run_ops_counter_range ops : forall st (w : World E) st' w',
  is_int64 (TensorCount w) ->
  run_ops lib G ops st w = Ok st' w' -> is_int64 (TensorCount w').
Proof.
  induction ops as [| op ops IH]; intros st w st' w' Hr Hrun; simpl in *.
  - by injection Hrun as _ <-.
  - unfold mbind, M_bind in Hrun.
    destruct op as [c nameOpt | how i | f]; simpl in Hrun.
    + unfold mbind, M_bind in Hrun.
      pose proof (newTensor_spec lib G c nameOpt w) as Hspec. simpl in Hspec.
      destruct (newTensor lib G c nameOpt w) as [x w1 |]; [| done].
      destruct Hspec as (_ & HTC & _). simpl in Hrun.
      apply (IH _ _ _ _ ltac:(rewrite HTC; apply wrap_int64_range) Hrun).
    + destruct (st.1 !! i) as [ts |]; simpl in Hrun.
      * unfold mbind, M_bind in Hrun. rewrite release_eq in Hrun.
        pose proof (freeCTensor_spec lib G (as_released how ts) w) as Hspec.
        destruct (freeCTensor lib G (as_released how ts) w) as [r w1 |];
          [| done].
        destruct Hspec as (HTC & _). simpl in Hrun.
        apply (IH _ _ _ _ ltac:(by rewrite HTC) Hrun).
      * by apply (IH _ _ _ _ Hr Hrun).
    + unfold mbind, M_bind, engine_step in Hrun. simpl in Hrun.
      eapply IH; [| exact Hrun]. exact Hr.
Qed.

(** X3.  [TensorCount] counts the wrappers that were created, not those
    that are alive: after a program it is where it was plus the number of
    acquires, in [int64] arithmetic; no release takes anything off. *)
Theorem TensorCount_counts_created ops st (w : World E) st' w' :
  is_int64 (TensorCount w) ->
  run_ops lib G ops st w = Ok st' w' ->
  TensorCount w' = wrap_int64 (TensorCount w + Z.of_nat (count_new ops)).
Proof.
  intros Hr Hrun.
  rewrite <- (run_ops_counter _ _ _ _ _ Hrun). symmetry.
  apply wrap_int64_id. by eapply run_ops_counter_range.
Qed.

(** Releases of a wrapper whose name is not registered, one after the
    other. *)
Lemma releases_unregistered hows : forall ts h (w : World E) res,
  ctensor ts = Some h -> name ts ∉ ExistingTensors w ->
  exists ts' w' tr,
    run_ops lib G ((fun how => OpRelease how 0%nat) <$> hows) ([ts], res) w
      = Ok ([ts'], res ++ replicate (List.length hows) None) w' /\
    ctensor ts' = Some h /\ name ts' = name ts /\
    trace w' = trace w ++ tr /\ free_calls tr = [] /\
    List.length (log_lines tr) = List.length hows /\
    ExistingTensors w' = ExistingTensors w.
Proof.
  induction hows as [| how hows IH]; intros ts h w res Hc Hnin; simpl.
  - exists ts, w, []. rewrite !app_nil_r. done.
  - destruct (release_unregistered how ts h w Hc Hnin)
      as (w1 & tr1 & Hrel & Htr1 & Hf1 & Hl1 & Hreg1).
    unfold mbind, M_bind. simpl. unfold mbind, M_bind. rewrite Hrel. simpl.
    destruct (IH (as_released how ts) h w1 (res ++ [None])) as
      (ts' & w' & tr & Hrun & Hc' & Hn' & Htr & Hf & Hl & Hreg).
    { by rewrite as_released_ctensor. }
    { by rewrite as_released_name, Hreg1. }
    exists ts', w', (tr1 ++ tr). rewrite <- app_assoc in Hrun.
    split; [exact Hrun |]. split; [done |].
    split; [by rewrite Hn', as_released_name |].
    split; [by rewrite Htr, Htr1, app_assoc |].
    rewrite free_calls_app, log_lines_app, Hf1, Hf, Hl1, length_app, Hl.
    split; [done |]. split; [done |]. congruence.
Qed.

(** X4.  Two wrappers go by the same name, each with a handle.  Once
    one of them is released, every release of the other, by [Drop] or by
    the finalizer, as often as one likes, logs the warning and returns
    [nil]: the native free routine is never entered for its handle, which
    stays in the wrapper. *)
Theorem shared_name_leak how1 hows ts1 ts2 h2 (w0 : World E) r1 w1 :
  name ts2 = name ts1 -> is_Some (ctensor ts1) -> ctensor ts2 = Some h2 ->
  name ts1 ∈ ExistingTensors w0 ->
  release lib G how1 ts1 w0 = Ok (r1, None) w1 ->
  exists ts2' w2 tr,
    run_ops lib G ((fun how => OpRelease how 0%nat) <$> hows) ([ts2], []) w1
      = Ok ([ts2'], replicate (List.length hows) None) w2 /\
    ctensor ts2' = Some h2 /\
    trace w2 = trace w1 ++ tr /\ free_calls tr = [] /\
    List.length (log_lines tr) = List.length hows.
Proof.
  intros Hname [h1 Hc1] Hc2 Hin Hrel. rewrite release_eq in Hrel.
  pose proof (freeCTensor_spec lib G (as_released how1 ts1) w0) as S.
  rewrite Hrel in S.
  destruct S as (_ & _ & tr & _ & _ & _ & _ & _ & _ & Hcase).
  rewrite as_released_ctensor, as_released_name, Hc1,
    (decide_True _ _ Hin) in Hcase. simpl in Hcase.
  destruct Hcase as (_ & _ & Hreg & _).
  destruct (releases_unregistered hows ts2 h2 w1 [] Hc2) as
    (ts' & w' & tr' & Hrun & Hc' & _ & Htr & Hf & Hl & _).
  { rewrite Hreg, Hname. intros [_ Hn]%elem_of_difference.
    apply Hn. by apply elem_of_singleton. }
  by exists ts', w', tr'.
Qed.

(** X5.  A wrapper acquired for the handle [nil] is registered like any
    other, and no release takes it out again: [Drop], the finalizer and
    [MustDrop] return at once and leave the process as it is. *)
Theorem nil_handle_stays_registered nameOpt (w : World E) x w1 :
  newTensor lib G None nameOpt w = Ok x w1 ->
  ctensor x = None /\ name x ∈ ExistingTensors w1 /\
  forall how (w2 : World E),
    release lib G how x w2 = Ok (x, None) w2 /\
    MustDrop lib G x w2 = Ok x w2.
Proof.
  intros Hnew.
  pose proof (newTensor_spec lib G None nameOpt w) as S. rewrite Hnew in S.
  simpl in S. destruct S as (-> & _ & Hreg & _). simpl.
  split; [done |]. split.
  - rewrite Hreg. apply elem_of_union. left. by apply elem_of_singleton.
  - intros how w2. split; [by apply release_cleared |]. done.
Qed.

End Registry.

(** ** The lock *)

Section Locking.

Lemma lock_ok_app h tr1 tr2 :
  lock_ok h (tr1 ++ tr2) = lock_ok h tr1 && lock_ok (held_after h tr1) tr2.
Proof.
  revert h. induction tr1 as [| e tr1 IH]; intros h; [done |].
  destruct e; simpl; rewrite ?IH; try done; by rewrite andb_assoc.
Qed.

Lemma quiet_lock_ok h tr : forallb quiet tr = true -> lock_ok h tr = true.
Proof.
  revert h. induction tr as [| e tr IH]; intros h; [done |]. simpl.
  intros [He Htr]%andb_prop. destruct e; try done; by apply IH.
Qed.

Context {E : Type} (lib : Libtch E) (G : Gotch).

Lemma locked_ret {A} (a : A) (w : World E) : locked w (Ok a w).
Proof. exists []. by rewrite app_nil_r. Qed.

Lemma locked_bind {A B} (m : M E A) (f : A -> M E B) (w : World E) :
  locked w (m w) ->
  (forall a w1, m w = Ok a w1 -> locked w1 (f a w1)) ->
  locked w ((m ≫= f) w).
Proof.
  unfold mbind, M_bind. intros (tr1 & Htr1 & Hl1 & Hh1) Hf.
  destruct (m w) as [a w1 | msg w1]; [| by exists tr1].
  destruct (Hf a w1 eq_refl) as (tr2 & Htr2 & Hl2 & Hh2).
  simpl in Htr1. exists (tr1 ++ tr2).
  rewrite Htr2, Htr1, app_assoc, lock_ok_app, Hl1, Hh1, Hl2.
  split; [done |]. split; [done |].
  destruct (f a w1); [| done]. by rewrite held_after_app, Hh1.
Qed.

Lemma newTensor_locked c nameOpt (w : World E) :
  locked w (newTensor lib G c nameOpt w).
Proof.
  unfold locked, newTensor. mstep. destruct (Debug w) eqn:Hd.
  - match goal with |- context [nbytes lib G ?x ?w1] =>
      pose proof (query_nbytes lib G x w1) as Hq;
      destruct (nbytes lib G x w1) as [n wS | msg wS] end; simpl in *.
    + frame_of Hq. simpl in HTC, HAM, HET, HDb.
      destruct nameOpt as [| n0 rest]; mstep; rewrite ?HET, ?HTC;
        case_decide; mstep; rewrite ?Htrq; eexists; trace_norm;
        (split; [done |]); simpl;
        rewrite !lock_ok_app, !held_after_app, quiet_lock_ok,
          quiet_held_after by done; done.
    + frame_of Hq. rewrite Htrq. eexists. trace_norm. split; [done |].
      simpl. by rewrite quiet_lock_ok.
  - destruct nameOpt as [| n0 rest]; mstep; case_decide; mstep;
      eexists; trace_norm; (split; [done |]); done.
Qed.

Lemma freeCTensor_locked ts (w : World E) :
  locked w (freeCTensor lib G ts w).
Proof.
  unfold locked, freeCTensor. destruct (ctensor ts) as [h |] eqn:Hc.
  2:{ mstep. exists []. by rewrite app_nil_r. }
  mstep. destruct (decide (name ts ∈ ExistingTensors w)) as [Hin | Hnin].
  2:{ mstep. eexists. trace_norm. split; [done |]. done. }
  mstep. destruct (Debug w) eqn:Hd.
  - match goal with |- context [Size lib G ts ?w1] =>
      pose proof (query_Size lib G ts w1) as Hq;
      destruct (Size lib G ts w1) as [a wS | msg wS] end; simpl in *.
    + frame_of Hq.
      match goal with |- context [GetAndResetLastErr lib ?e] =>
        destruct (GetAndResetLastErr lib e) as [[e' |] eng'] end; simpl;
        rewrite ?Htrq; eexists; trace_norm; (split; [done |]); simpl;
        rewrite !lock_ok_app, !held_after_app, quiet_lock_ok,
          quiet_held_after by done; done.
    + frame_of Hq. rewrite Htrq. eexists. trace_norm. split; [done |].
      simpl. by rewrite quiet_lock_ok.
  - match goal with |- context [GetAndResetLastErr lib ?e] =>
      destruct (GetAndResetLastErr lib e) as [[e' |] eng'] end; simpl;
      eexists; trace_norm; (split; [done |]); done.
Qed.

Lemma release_locked how ts (w : World E) :
  locked w (release lib G how ts w).
Proof. rewrite release_eq. apply freeCTensor_locked. Qed.

Lemma run_op_locked op st (w : World E) : locked w (run_op lib G op st w).
Proof.
  destruct op as [c nameOpt | how i | f]; simpl.
  - apply locked_bind; [apply newTensor_locked | intros; apply locked_ret].
  - destruct (st.1 !! i) as [ts |]; [| exact (locked_ret st w)].
    apply locked_bind; [apply release_locked | intros; apply locked_ret].
  - exists []. simpl. by rewrite app_nil_r.
Qed.

(** X6.  Whatever a program of acquires, releases and engine activity
    does, and also when it ends in [log.Fatal], it takes the lock only
    when the lock is free and gives it back only when it holds it; when it
    returns the lock is free.  The same holds of [CheckCMemLeak]. *)
Theorem lock_discipline ops st (w : World E) :
  locked w (run_ops lib G ops st w) /\ locked w (CheckCMemLeak G w).
Proof.
  split.
  - revert st w. induction ops as [| op ops IH]; intros st w; simpl.
    + exact (locked_ret st w).
    + apply locked_bind; [apply run_op_locked | intros; apply IH].
  - unfold locked, CheckCMemLeak. mstep. eexists. trace_norm.
    split; [done |]. done.
Qed.

End Locking.

(** ** Bytes and shapes *)

Section Bytes.

Lemma byte_val_of_N (v : Z) :
  0 <= v < 256 -> byte_val (default x00 (Byte.of_N (Z.to_N v))) = v.
Proof.
  intros Hv. unfold byte_val.
  destruct (Byte.of_N (Z.to_N v)) as [b |] eqn:Hb; simpl.
  - apply Byte.to_of_N in Hb. rewrite Hb. lia.
  - apply Byte.of_N_None_iff in Hb. lia.
Qed.

Lemma le_unsigned_le_bytes n v :
  0 <= v -> le_unsigned (le_bytes n v) = v mod 256 ^ Z.of_nat n.
Proof.
  revert v. induction n as [| n IH]; intros v Hv.
  - simpl. by rewrite Z.mod_1_r.
  - cbn [le_bytes le_unsigned].
    rewrite byte_val_of_N by (apply Z.mod_pos_bound; lia).
    rewrite IH by (apply Z.div_pos; lia).
    rewrite Nat2Z.inj_succ, Z.pow_succ_r by lia.
    rewrite (Z.rem_mul_r v 256 (256 ^ Z.of_nat n)) by lia. done.
Qed.

Lemma le_bytes_length n v : List.length (le_bytes n v) = n.
Proof. revert v. induction n as [| n IH]; intros v; simpl; [done | by rewrite IH]. Qed.

Lemma wrap_int64_uint64 z : is_int64 z -> wrap_int64 (wrap_uint64 z) = z.
Proof.
  unfold is_int64, wrap_int64, wrap_uint64. intros Hz.
  rewrite Zplus_mod_idemp_l. rewrite Z.mod_small by lia. lia.
Qed.

Lemma store_int64_length little z : List.length (store_int64 little z) = 8%nat.
Proof.
  unfold store_int64, encode_int64.
  destruct little; rewrite ?length_rev; apply le_bytes_length.
Qed.

Lemma decode_store_int64 little z :
  is_int64 z -> decode_int64 little (store_int64 little z) = z.
Proof.
  intros Hz. unfold decode_int64, store_int64, encode_int64.
  assert (le_unsigned (le_bytes 8 (wrap_uint64 z)) = wrap_uint64 z) as Hle.
  { rewrite le_unsigned_le_bytes by apply wrap_uint64_range.
    apply Z.mod_small. apply wrap_uint64_range. }
  destruct little; rewrite ?rev_involutive, Hle; by apply wrap_int64_uint64.
Qed.

Lemma store_int64s_length little l :
  List.length (store_int64s little l) = (8 * List.length l)%nat.
Proof.
  unfold store_int64s. induction l as [| z l IH]; [done |].
  rewrite bind_cons, length_app, store_int64_length, IH. simpl. lia.
Qed.

Lemma decode_store_int64s little l rest :
  Forall is_int64 l ->
  decode_int64s little (List.length l) (store_int64s little l ++ rest) = l.
Proof.
  unfold store_int64s. induction 1 as [| z l Hz Hl IH]; [done |].
  rewrite bind_cons. cbn [List.length decode_int64s]. rewrite <- app_assoc.
  rewrite take_app_length' by (by rewrite store_int64_length).
  rewrite drop_app_length' by (by rewrite store_int64_length).
  rewrite decode_store_int64 by done. f_equal. exact IH.
Qed.

End Bytes.

Section Shapes.

Context {E : Type} (lib : Libtch E) (G : Gotch).

(** X7.  [decodeSize] reads back what was stored: from memory that
    starts with the [int64] values [l] in the byte order of the machine,
    at eight bytes each, it returns [l], for up to [2 ^ 27] values. *)
Theorem decodeSize_round_trip l rest (w : World E) :
  DType_Size G (Int64 G) = 8 -> Forall is_int64 l -> len l <= 2 ^ 27 ->
  decodeSize G (store_int64s (nativeEndian_little G) l ++ rest) (len l) w
    = Ok l w.
Proof.
  intros Hsz Hl Hlen. unfold decodeSize, to_int. rewrite Hsz.
  assert (0 <= len l) as Hpos by (unfold len; lia).
  rewrite (wrap_int64_id (len l)) by (unfold is_int64; lia).
  rewrite (wrap_int64_id 8) by (unfold is_int64; lia).
  rewrite wrap_int64_id by (unfold is_int64; lia).
  destruct (Z.ltb_spec (len l * 8) 0); [lia |].
  destruct (Z.ltb_spec (2 ^ 30) (len l * 8)); [lia |]. simpl.
  assert (Z.to_nat (len l * 8) = (8 * List.length l)%nat) as -> by (unfold len; lia).
  rewrite take_app_length' by (by rewrite store_int64s_length).
  unfold len at 1. rewrite store_int64s_length.
  destruct (Z.ltb_spec (Z.of_nat (8 * List.length l)) (8 * len l));
    [unfold len in *; lia |].
  unfold len. rewrite Nat2Z.id.
  rewrite <- (app_nil_r (store_int64s _ l)).
  by rewrite decode_store_int64s.
Qed.

(** X8.  [Size2], [Size3] and [Size4] return without error only the
    shape that [Size] returned, and only when it has two, three and four
    entries; with an error they return no shape.  [Size1] returns without
    error only the one entry of a shape of length one, and its index never
    goes out of range: it ends the process only when [Size] does. *)
Theorem SizeN_exact ts (w : World E) :
  match Size1 lib G ts w with
  | Ok (d, None) w' => Size lib G ts w = Ok ([d], None) w'
  | Ok (d, Some e) w' => d = 0 /\ exists r, Size lib G ts w = Ok r w'
  | Fatal msg w' => Size lib G ts w = Fatal msg w'
  end /\
  match Size2 lib G ts w with
  | Ok (shape, None) w' => len shape = 2 /\ Size lib G ts w = Ok (shape, None) w'
  | Ok (shape, Some e) w' => shape = []
  | Fatal msg w' => Size lib G ts w = Fatal msg w'
  end /\
  match Size3 lib G ts w with
  | Ok (shape, None) w' => len shape = 3 /\ Size lib G ts w = Ok (shape, None) w'
  | Ok (shape, Some e) w' => shape = []
  | Fatal msg w' => Size lib G ts w = Fatal msg w'
  end /\
  match Size4 lib G ts w with
  | Ok (shape, None) w' => len shape = 4 /\ Size lib G ts w = Ok (shape, None) w'
  | Ok (shape, Some e) w' => shape = []
  | Fatal msg w' => Size lib G ts w = Fatal msg w'
  end.
Proof.
  unfold Size1, Size2, Size3, Size4, mbind, M_bind.
  destruct (Size lib G ts w) as [[shape [e |]] w' | msg w']; simpl;
    try done.
  - by repeat split; eauto.
  - repeat split; try (case_decide; simpl; by eauto).
    case_decide as Hlen; simpl; [| by eauto].
    destruct shape as [| d [| d' rest]]; simpl in *; try done.
    unfold len in Hlen. simpl in Hlen. lia.
Qed.

(** X9.  For a tensor that the engine reports as undefined, [Numel] and
    [nbytes] are zero, and the engine is asked nothing but whether the
    tensor is defined and for its last error: neither the shape nor the
    element type. *)
Theorem undefined_tensor_is_empty ts (w : World E) :
  (AtDefined lib (ctensor ts) (engine w)).1 = false ->
  (GetAndResetLastErr lib (AtDefined lib (ctensor ts) (engine w)).2).1 = None ->
  exists w',
    Numel lib G ts w = Ok 0 w' /\ nbytes lib G ts w = Ok 0 w' /\
    trace w' = trace w ++ [EvNative (CAtDefined (ctensor ts));
                           EvNative CGetAndResetLastErr] /\
    same_vars w w'.
Proof.
  intros Hdef Herr.
  unfold nbytes, Numel, MustDefined, Defined, lib_AtDefined. mstep.
  rewrite Herr, Hdef. simpl. eexists. split; [done |]. split; [done |].
  split; [by trace_norm |]. by repeat split.
Qed.

End Shapes.

(** ** Tensors from bytes, copies and [MustDrop] *)

Section DataAndCopies.

Context {E : Type} (lib : Libtch E) (G : Gotch).

(** X10.  When the byte length fits and the engine reports an error for
    [AtTensorOfData], [OfDataSize] returns that error and no wrapper; the
    counters and the registry are as before, and the C buffer of
    [len(data)] bytes it had asked for is freed. *)
Theorem OfDataSize_engine_error data shape dtype opts (w : World E) e :
  wrap_int64 (ElementCount G shape * to_int (DType_Size G dtype)) = len data ->
  (GetAndResetLastErr lib
     (AtTensorOfData lib data shape (to_uint (len shape)) (DType_Size G dtype)
        (to_int (DType_CKind G dtype)) (engine w)).2).1 = Some e ->
  exists w',
    OfDataSize lib G data shape dtype opts w = Ok (None, Some e) w' /\
    same_vars w w' /\
    trace w' = trace w ++
      [EvCMalloc (len data);
       EvNative (CAtTensorOfData shape (DType_Size G dtype)
                   (to_int (DType_CKind G dtype)));
       EvNative CGetAndResetLastErr; EvCFree].
Proof.
  intros Hlen Herr. unfold OfDataSize, lib_AtTensorOfData.
  rewrite decide_True by done. mstep. rewrite Hlen.
  destruct (GetAndResetLastErr lib _) as [[e' |] eng'] eqn:Hq; simpl in *;
    [| done].
  injection Herr as ->. eexists. split; [done |].
  split; [by repeat split | by trace_norm].
Qed.

(** X11.  A wrapper that [OfDataSize] returns comes without an error
    and holds the handle the engine returned; its name is the name of the
    options, or that name with an underscore and the counter when it is
    taken.  Without options the name is the empty string or an underscore
    and the counter, never one of the generated names. *)
Theorem OfDataSize_names data shape dtype opts (w : World E) x err w' :
  OfDataSize lib G data shape dtype opts w = Ok (Some x, err) w' ->
  let o := foldl (fun o opt => opt o) (DefaultTensorOptions G) opts in
  let cnt := wrap_int64 (TensorCount w + 1) in
  err = None /\ len data =
    wrap_int64 (ElementCount G shape * to_int (DType_Size G dtype)) /\
  ctensor x =
    (AtTensorOfData lib data shape (to_uint (len shape)) (DType_Size G dtype)
       (to_int (DType_CKind G dtype)) (engine w)).1 /\
  name x = unique_name (ExistingTensors w) (Name o) cnt /\
  name x ∈ ExistingTensors w' /\ TensorCount w' = cnt /\
  (opts = [] -> name x = "" \/ name x = "_" +:+ fmt_09d cnt).
Proof.
  intros Hrun o cnt. unfold OfDataSize, lib_AtTensorOfData in Hrun.
  fold o in Hrun. case_decide as Hlen; [| done].
  revert Hrun. mstep.
  destruct (GetAndResetLastErr lib _) as [[e' |] eng']; simpl; [done |].
  match goal with |- context [newTensor lib G ?c ?n ?w1] =>
    pose proof (newTensor_spec lib G c n w1) as S;
    destruct (newTensor lib G c n w1) as [x1 w2 | msg w2] end; simpl in *;
    [| done].
  intros [= <- <- <-].
  destruct S as (-> & HTC & Hreg & _). simpl.
  split; [done |]. split; [done |]. split; [done |]. split; [done |].
  split; [rewrite Hreg; apply elem_of_union; left; by apply elem_of_singleton |].
  split; [done |].
  intros ->. subst o. simpl. unfold unique_name. case_decide; [by right | by left].
Qed.

(** X12.  [MustOfDataSize] returns exactly when [OfDataSize] returns a
    wrapper without an error, and then that wrapper; it ends the process
    with the message of the error otherwise.  When the byte length does
    not fit it ends the process in the world it started in. *)
Theorem MustOfDataSize_outcomes data size dtype opts (w : World E) :
  match MustOfDataSize lib G data size dtype opts w with
  | Ok r w' =>
      exists x, r = Some x /\
                OfDataSize lib G data size dtype opts w = Ok (Some x, None) w'
  | Fatal msg w' =>
      OfDataSize lib G data size dtype opts w = Ok (None, Some msg) w' \/
      OfDataSize lib G data size dtype opts w = Fatal msg w'
  end /\
  (wrap_int64 (ElementCount G size * to_int (DType_Size G dtype)) <> len data ->
   exists msg, MustOfDataSize lib G data size dtype opts w = Fatal msg w).
Proof.
  split.
  - unfold MustOfDataSize, mbind, M_bind.
    destruct (OfDataSize lib G data size dtype opts w) as [r w' | msg w']
      eqn:Hrun; [| by right].
    unfold OfDataSize, lib_AtTensorOfData in Hrun.
    case_decide; [| by injection Hrun as <- <-; left].
    revert Hrun. mstep.
    destruct (GetAndResetLastErr lib _) as [[e' |] eng']; simpl;
      [by intros [= <- <-]; left |].
    match goal with |- context [newTensor lib G ?c ?n ?w1] =>
      destruct (newTensor lib G c n w1) as [x1 w2 | msg w2] end; simpl;
      [| done].
    intros [= <- <-]. simpl. by exists x1.
  - intros Hne. unfold MustOfDataSize, OfDataSize, mbind, M_bind.
    rewrite decide_False by done. simpl. by eexists.
Qed.

(** X13.  [CopyDataUint8] into an empty destination: for a count
    between 1 and [2 ^ 63 - 1] it returns the error about the length; for
    the count zero, and for counts from [2 ^ 63] on, the test passes and
    taking the address of the first element panics.  In no case is the
    engine called. *)
Theorem CopyDataUint8_empty ts numel (w : World E) :
  0 <= numel < 2 ^ 64 ->
  if (0 <? numel) && (numel <? 2 ^ 63) then
    exists e, CopyDataUint8 lib G ts [] numel w = Ok ([], Some e) w
  else
    exists msg, CopyDataUint8 lib G ts [] numel w = Fatal msg w.
Proof.
  intros Hn. unfold CopyDataUint8, to_int.
  destruct (Z.ltb_spec 0 numel) as [Hpos | Hzero];
    destruct (Z.ltb_spec numel (2 ^ 63)) as [Hsmall | Hbig]; simpl.
  - rewrite wrap_int64_id by (unfold is_int64; lia).
    destruct (Z.ltb_spec (len (@nil byte)) numel) as [| Hge];
      [by eexists | unfold len in Hge; simpl in Hge; lia].
  - rewrite wrap_int64_high by lia.
    destruct (Z.ltb_spec (len (@nil byte)) (numel - 2 ^ 64)) as [Hlt |];
      [unfold len in Hlt; simpl in Hlt; lia | by eexists].
  - assert (numel = 0) as -> by lia. simpl. by eexists.
  - lia.
Qed.

(** X14.  When the destination is long enough but of another element
    type than the tensor, [CopyData] returns an error and leaves the
    destination alone: the engine is asked for the element type, twice,
    and [AtCopyData] is not called. *)
Theorem CopyData_type_mismatch ts dst numel (w : World E) :
  to_int numel <= (DataCheck G dst).1.2 ->
  CKind2DType G (AtScalarType lib (ctensor ts) (engine w)).1
    <> (DataCheck G dst).1.1 ->
  exists e w',
    CopyData lib G ts dst numel w = Ok (dst, Some e) w' /\
    same_vars w w' /\
    trace w' = trace w ++ [EvNative (CAtScalarType (ctensor ts));
                           EvNative (CAtScalarType (ctensor ts))].
Proof.
  intros Hlen Hty. unfold CopyData, Tensor_DType, lib_AtScalarType.
  destruct (Z.ltb_spec (DataCheck G dst).1.2 (to_int numel)); [lia |].
  mstep. rewrite decide_False by done. simpl.
  eexists _, _. split; [done |]. split; [by repeat split | by trace_norm].
Qed.


End DataAndCopies.

(** ** The byte counter of the diagnostic mode *)

Section Accounting.

Context {E : Type} (lib : Libtch E) (G : Gotch).

Lemma wrap_int64_add_r a b : wrap_int64 (a + wrap_int64 b) = wrap_int64 (a + b).
Proof. rewrite Z.add_comm, wrap_int64_add_l. f_equal. lia. Qed.

Lemma wrap_int64_cancel a n :
  is_int64 a ->
  wrap_int64 (wrap_int64 (a + n) + wrap_int64 (- n)) = a.
Proof.
  intros Ha. rewrite wrap_int64_add_l, wrap_int64_add_r.
  replace (a + n + - n) with a by lia. by apply wrap_int64_id.
Qed.

(** With the engine at rest, [Size] answers the same in two worlds. *)
Lemma Size_steady ts ts' (w w' : World E) :
  steady lib (ctensor ts) (engine w) ->
  ctensor ts' = ctensor ts -> engine w' = engine w ->
  match Size lib G ts w, Size lib G ts' w' with
  | Ok r w1, Ok r' w1' =>
      r' = r /\ engine w1 = engine w /\ engine w1' = engine w
  | Fatal _ _, Fatal _ _ => True
  | _, _ => False
  end.
Proof.
  intros (Hdef & Hdim & Hshape & Hkind & Herr) Hc He.
  unfold Size, lib_AtDim, lib_AtShape, decodeSize. mstep. rewrite Hc, He.
  destruct (_ || _); [by simpl; rewrite Hdim |].
  destruct (DataAsPtr G _) as [err | buf]; [by simpl; rewrite Hdim |].
  mstep. rewrite Hdim, Hshape.
  destruct (GetAndResetLastErr lib (engine w)) as [[e1 |] eng1] eqn:Hq;
    simpl in *; subst eng1.
  - done.
  - destruct (_ || _); [done |]. destruct (_ <? _); done.
Qed.


(** The estimate of [nbytes] and of the diagnostic mode of
    [freeCTensor] for a shape and an element type code. *)
Lemma nbytes_steady ts (w : World E) n wq :
  steady lib (ctensor ts) (engine w) ->
  (AtDefined lib (ctensor ts) (engine w)).1 = true ->
  nbytes lib G ts w = Ok n wq ->
  engine wq = engine w /\
  forall ts' (w' : World E),
    ctensor ts' = ctensor ts -> engine w' = engine w ->
    exists shape wS,
      Size lib G ts' w' = Ok (shape, None) wS /\ engine wS = engine w /\
      n = wrap_int64 (wrap_uint64
            (to_uint (FlattenDim G shape)
             * DType_Size G (CKind2DType G
                 (AtScalarType lib (ctensor ts) (engine w)).1))).
Proof.
  intros Hst Hdefd.
  pose proof Hst as (Hdef & Hdim & Hshape & Hkind & Herr).
  unfold nbytes, Numel, MustDefined, Defined, lib_AtDefined, MustSize,
    Tensor_DType, lib_AtScalarType.
  mstep. rewrite Hdef, Hdefd.
  destruct (GetAndResetLastErr lib (engine w)) as [[e1 |] eng1] eqn:Hq;
    simpl in *; subst eng1; [done |].
  match goal with |- context [Size lib G ts ?w1] =>
    pose proof (fun ts' w' => Size_steady ts ts' w1 w') as Hag;
    destruct (Size lib G ts w1) as [[shape [err |]] wS | msg wS] eqn:HS end;
    simpl in *; try done.
  assert (forall ts' (w' : World E),
            ctensor ts' = ctensor ts -> engine w' = engine w ->
            exists wS', Size lib G ts' w' = Ok (shape, None) wS' /\
                        engine wS' = engine w) as Hany.
  { intros ts' w' Hc He. specialize (Hag ts' w' Hst Hc He).
    destruct (Size lib G ts' w') as [r' wS' |]; [| done].
    destruct Hag as (-> & _ & HeS). by exists wS'. }
  assert (engine wS = engine w) as HeS.
  { pose proof (Hag ts w Hst eq_refl eq_refl) as H0.
    destruct (Size lib G ts w); [| done]. by destruct H0 as (_ & ? & _). }
  destruct (Z.eqb_spec (to_uint (FlattenDim G shape)) 0) as [Hz | Hnz];
    intros [= <- <-]; simpl; rewrite ?HeS, ?Hkind; (split; [done |]);
    intros ts' w' Hc He; destruct (Hany ts' w' Hc He) as (wS' & HS' & HeS');
    exists shape, wS'; (split; [done |]); (split; [done |]); [| done].
  rewrite Hz. done.
Qed.

(** In the diagnostic mode a release subtracts its estimate from
    [AllocatedMem], whether or not the free routine fails afterwards. *)
Lemma freeCTensor_debug_bytes ts h (w : World E) r w' :
  Debug w = true -> ctensor ts = Some h -> name ts ∈ ExistingTensors w ->
  steady lib (ctensor ts) (engine w) ->
  freeCTensor lib G ts w = Ok r w' ->
  exists shape err wS,
    Size lib G ts w = Ok (shape, err) wS /\
    AllocatedMem w' =
      wrap_int64 (AllocatedMem w + wrap_int64 (- wrap_int64 (wrap_uint64
        (to_uint (FlattenDim G shape)
         * DType_Size G (CKind2DType G
             (AtScalarType lib (ctensor ts) (engine w)).1))))).
Proof.
  intros Hd Hc Hin Hst.
  pose proof Hst as (Hdef & Hdim & Hshape & Hkind & Herr).
  unfold freeCTensor. rewrite Hc. mstep. rewrite decide_True by done.
  mstep. rewrite Hd. unfold Tensor_DType, lib_AtScalarType. mstep.
  match goal with |- context [Size lib G ts ?w1] =>
    pose proof (Size_steady ts ts w1 w) as Hag;
    destruct (Size lib G ts w1) as [[shape err] wS | msg wS] eqn:HS end;
    simpl in *; [| done].
  specialize (Hag ltac:(by rewrite Hc in Hst |- *) eq_refl eq_refl).
  destruct (Size lib G ts w) as [r0 wS0 |]; [| done].
  destruct Hag as (-> & HeS & _). rewrite HeS, Hc.
  pose proof (query_Size lib G ts) as Hq.
  match type of HS with Size lib G ts ?w1 = _ =>
    specialize (Hq w1); rewrite HS in Hq end.
  destruct Hq as ((_ & HAM & _) & _). simpl in HAM.
  match goal with |- context [GetAndResetLastErr lib ?e] =>
    destruct (GetAndResetLastErr lib e) as [[e1 |] eng1] end; simpl;
    intros [= <- <-]; simpl; rewrite HAM; by eexists _, _, _.
Qed.

(** In the diagnostic mode the engine is after an acquire where the
    estimate left it. *)
Lemma newTensor_debug_engine c nameOpt (w : World E) x w' n wq :
  Debug w = true ->
  nbytes lib G (mkTensor "" c "") (counted w) = Ok n wq ->
  newTensor lib G c nameOpt w = Ok x w' -> engine w' = engine wq.
Proof.
  intros Hd Hn. unfold counted in Hn. revert Hn. unfold newTensor. mstep.
  rewrite Hd. intros ->. simpl.
  destruct nameOpt as [| n0 rest]; mstep; case_decide; mstep;
    by intros [= _ <-].
Qed.

(** X16.  In the diagnostic mode, with the engine at rest and a defined
    tensor, an acquire followed by the release of the wrapper brings
    [AllocatedMem] back to where it was: the release subtracts what the
    acquire added, also when the free routine fails afterwards. *)
Theorem debug_bytes_balance h nameOpt how (w0 : World E) x w1 r w2 :
  Debug w0 = true -> is_int64 (AllocatedMem w0) ->
  steady lib (Some h) (engine w0) ->
  (AtDefined lib (Some h) (engine w0)).1 = true ->
  newTensor lib G (Some h) nameOpt w0 = Ok x w1 ->
  release lib G how x w1 = Ok r w2 ->
  AllocatedMem w2 = AllocatedMem w0.
Proof.
  intros Hd Hr Hst Hdefd Hnew Hrel.
  pose proof (newTensor_spec lib G (Some h) nameOpt w0) as S.
  rewrite Hnew in S. simpl in S.
  destruct S as (Hx & _ & Hreg & HD1 & tr & _ & _ & _ & _ & _ & _ & HA & Hdl).
  rewrite Hd in Hdl. destruct Hdl as (n & wq & Hn & Hdl).
  rewrite Hdl in HA. simpl in HA.
  pose proof (newTensor_debug_engine _ _ _ _ _ _ _ Hd Hn Hnew) as He1.
  destruct (nbytes_steady (mkTensor "" (Some h) "") (counted w0) n wq
              Hst Hdefd Hn) as [Heq Hany].
  simpl in Heq, Hany. rewrite Heq in He1.
  rewrite release_eq in Hrel.
  assert (ctensor (as_released how x) = Some h) as Hc
    by (by rewrite as_released_ctensor, Hx).
  destruct (freeCTensor_debug_bytes (as_released how x) h w1 r w2)
    as (shape & err & wS & HS & HA2); try done.
  - congruence.
  - rewrite as_released_name, Hreg, Hx. simpl. apply elem_of_union. left.
    by apply elem_of_singleton.
  - by rewrite Hc, He1.
  - destruct (Hany (as_released how x) w1 Hc He1) as (shape' & wS' & HS' & _ & ->).
    rewrite HS in HS'. injection HS' as <- _ _.
    rewrite HA2, HA, Hc, He1. by apply wrap_int64_cancel.
Qed.

End Accounting.

(** ** Wrappers around results of the engine *)

Section Constructors.

Context {E : Type} (lib : Libtch E) (ops : LibtchOps E) (G : Gotch).

(** A call of the engine and the error query after it leave the
    variables alone. *)
Lemma engine_call_vars {A} (f : E -> A * E) (w : World E) :
  exists w1, engine_call f w = Ok (f (engine w)).1 w1 /\
             same_vars w w1 /\ trace w1 = trace w /\
             engine w1 = (f (engine w)).2.
Proof. eexists. split; [done |]. by repeat split. Qed.

(** X17.  [ShallowClone] returns a wrapper or an error, not both.  The
    clone holds the handle the engine returned and is registered under the
    name of the original followed by [_cloned], with an underscore and the
    counter when that is taken; its name differs from the original's.
    With an error the counters and the registry are as before. *)
Theorem ShallowClone_names ts (w : World E) :
  match ShallowClone lib ops G ts w with
  | Ok (Some x, err) w' =>
      err = None /\
      ctensor x = (AtShallowClone ops (ctensor ts) (engine w)).1 /\
      name x <> name ts /\
      (name x = name ts +:+ "_cloned" \/
       name x = (name ts +:+ "_cloned") +:+ "_" +:+ fmt_09d (TensorCount w')) /\
      ExistingTensors w' = {[name x]} ∪ ExistingTensors w /\
      TensorCount w' = wrap_int64 (TensorCount w + 1)
  | Ok (None, err) w' =>
      is_Some err /\ same_vars w w' /\
      trace w' = trace w ++ [EvNative CGetAndResetLastErr]
  | Fatal _ _ => Debug w = true
  end.
Proof.
  unfold ShallowClone, engine_call. mstep.
  destruct (GetAndResetLastErr lib _) as [[e' |] eng']; simpl.
  - split; [by eexists |]. by repeat split.
  - match goal with |- context [newTensor lib G ?c ?n ?w1] =>
      pose proof (newTensor_spec lib G c n w1) as S;
      destruct (newTensor lib G c n w1) as [x1 w2 | msg w2] end; simpl in *;
      [| by destruct S].
    destruct S as (-> & HTC & Hreg & _). simpl.
    split; [done |]. split; [done |]. rewrite HTC.
    split; [| split; [| done]].
    + unfold unique_name. case_decide; intros Heq;
        apply (f_equal String.length) in Heq;
        rewrite !string_length_app in Heq; simpl in Heq; lia.
    + unfold unique_name. case_decide; [by right | by left].
Qed.

(** X18.  [Get] and [Load] return a wrapper or an error, not both.  The
    wrapper of [Get] gets a generated name, the wrapper of [Load] the name
    it was given if any, each with the counter appended when taken; the
    wrapper holds the handle the engine returned and is registered.  With
    an error the counters and the registry are as before. *)
Theorem Get_Load_outcomes ts index path nameOpt (w : World E) :
  match Get lib ops G ts index w with
  | Ok (Some x, err) w' =>
      err = None /\ ctensor x = (AtGet ops (ctensor ts) index (engine w)).1 /\
      name x = unique_name (ExistingTensors w)
                 ("tensor_" +:+ fmt_09d (TensorCount w')) (TensorCount w') /\
      name x ∈ ExistingTensors w'
  | Ok (None, err) w' => is_Some err /\ same_vars w w'
  | Fatal _ _ => Debug w = true
  end /\
  match Load lib ops G path nameOpt w with
  | Ok (Some x, err) w' =>
      err = None /\ ctensor x = (AtLoad ops path (engine w)).1 /\
      name x = unique_name (ExistingTensors w)
                 (base_name nameOpt (TensorCount w')) (TensorCount w') /\
      name x ∈ ExistingTensors w'
  | Ok (None, err) w' => is_Some err /\ same_vars w w'
  | Fatal _ _ => Debug w = true
  end.
Proof.
  split.
  - unfold Get, engine_call. mstep.
    destruct (GetAndResetLastErr lib _) as [[e' |] eng']; simpl.
    + split; [by eexists | by repeat split].
    + match goal with |- context [newTensor lib G ?c ?n ?w1] =>
        pose proof (newTensor_spec lib G c n w1) as S;
        destruct (newTensor lib G c n w1) as [x1 w2 | msg w2] end; simpl in *;
        [| by destruct S].
      destruct S as (-> & HTC & Hreg & _). simpl. rewrite HTC.
      split; [done |]. split; [done |]. split; [done |].
      rewrite Hreg. apply elem_of_union. left. by apply elem_of_singleton.
  - unfold Load, engine_call. mstep.
    destruct (GetAndResetLastErr lib _) as [[e' |] eng']; simpl.
    + split; [by eexists | by repeat split].
    + match goal with |- context [newTensor lib G ?c ?n ?w1] =>
        pose proof (newTensor_spec lib G c n w1) as S;
        destruct (newTensor lib G c n w1) as [x1 w2 | msg w2] end; simpl in *;
        [| by destruct S].
      destruct S as (-> & HTC & Hreg & _). simpl. rewrite HTC.
      split; [done |]. split; [done |]. split; [done |].
      rewrite Hreg. apply elem_of_union. left. by apply elem_of_singleton.
Qed.

(** The loop of [LoadMulti]: one wrapper for each stored tensor, in
    order. *)
Lemma wrap_loaded_spec data : forall acc (w : World E),
  match wrap_loaded lib G data acc w with
  | Ok nts w' =>
      exists new,
        nts = acc ++ new /\
        NamedTensor_Name <$> new = data.*1 /\
        (fun nt => ctensor (NamedTensor_Tensor nt)) <$> new = data.*2 /\
        Forall (fun nt => name (NamedTensor_Tensor nt) ∈ ExistingTensors w') new /\
        ExistingTensors w ⊆ ExistingTensors w' /\
        wrap_int64 (TensorCount w') =
          wrap_int64 (TensorCount w + len data) /\
        (NoDup data.*1 ->
         Forall (fun n => n ∉ ExistingTensors w) data.*1 ->
         Forall (fun nt => name (NamedTensor_Tensor nt) = NamedTensor_Name nt)
           new)
  | Fatal _ _ => Debug w = true
  end.
Proof.
  induction data as [| [n c] data IH]; intros acc w; simpl.
  - exists []. rewrite app_nil_r. repeat (split; [done |]).
    split; [f_equal; unfold len; simpl; lia | done].
  - unfold mbind, M_bind.
    pose proof (newTensor_spec lib G c [n] w) as S. simpl in S.
    destruct (newTensor lib G c [n] w) as [x w1 | msg w1]; [| by destruct S].
    destruct S as (-> & HTC & Hreg & HD & _).
    specialize (IH (acc ++ [mkNamedTensor n
      (mkTensor (unique_name (ExistingTensors w) n
                   (wrap_int64 (TensorCount w + 1))) c "newTensor()")]) w1).
    destruct (wrap_loaded lib G data _ w1) as [nts w' | msg w'];
      [| by rewrite <- HD].
    destruct IH as (new & -> & Hn & Hc & Hin & Hsub & Hcnt & Hfresh).
    eexists (_ :: new). rewrite <- app_assoc. split; [done |].
    rewrite !fmap_cons, Hn, Hc. split; [done |]. split; [done |].
    assert (ExistingTensors w ⊆ ExistingTensors w') as Hsub'.
    { intros m Hm. apply Hsub. rewrite Hreg. apply elem_of_union. by right. }
    split.
    { constructor; [| done]. simpl. apply Hsub. rewrite Hreg.
      apply elem_of_union. left. by apply elem_of_singleton. }
    split; [done |]. split.
    { rewrite Hcnt, HTC, wrap_int64_add_l. f_equal. unfold len. simpl. lia. }
    intros [Hnot Hnd]%NoDup_cons [Hn0 Hrest]%Forall_cons.
    constructor.
    + simpl. unfold unique_name. by rewrite decide_False.
    + apply Hfresh; [done |]. rewrite Hreg.
      unfold unique_name. rewrite decide_False by done.
      apply Forall_forall. intros m Hm.
      rewrite Forall_forall in Hrest. specialize (Hrest m Hm).
      intros [->%elem_of_singleton | ?]%elem_of_union; done.
Qed.

(** X19.  [LoadMulti] and [LoadMultiWithDevice] wrap the stored tensors
    in their order: as many named tensors as were stored, each with its
    stored name in [Name] and its handle in the wrapper, every wrapper
    registered, and the counter moved by their number.  When the stored
    names are pairwise different and none is registered, every wrapper is
    registered under its stored name.  With an error the list is empty and
    the counters and the registry are as before. *)
Theorem LoadMulti_wraps_in_order path device (w : World E) :
  let loaded data (o : Outcome E (list NamedTensor * option error)) :=
    match o with
    | Ok (nts, None) w' =>
        NamedTensor_Name <$> nts = data.*1 /\
        (fun nt => ctensor (NamedTensor_Tensor nt)) <$> nts = data.*2 /\
        Forall (fun nt => name (NamedTensor_Tensor nt) ∈ ExistingTensors w')
          nts /\
        wrap_int64 (TensorCount w') = wrap_int64 (TensorCount w + len data) /\
        (NoDup data.*1 ->
         Forall (fun n => n ∉ ExistingTensors w) data.*1 ->
         Forall (fun nt => name (NamedTensor_Tensor nt) = NamedTensor_Name nt)
           nts)
    | Ok (nts, Some e) w' => nts = [] /\ same_vars w w'
    | Fatal _ _ => Debug w = true
    end in
  loaded (AtLoadCallback ops path (engine w)).1 (LoadMulti lib ops G path w) /\
  loaded (AtLoadCallbackWithDevice ops path device (engine w)).1
    (LoadMultiWithDevice lib ops G path device w).
Proof.
  intros loaded. subst loaded. split.
  - unfold LoadMulti, engine_call. mstep.
    destruct (GetAndResetLastErr lib _) as [[e' |] eng']; simpl.
    + split; [done | by repeat split].
    + match goal with |- context [wrap_loaded lib G ?d ?a ?w1] =>
        pose proof (wrap_loaded_spec d a w1) as S;
        destruct (wrap_loaded lib G d a w1) as [nts w2 | msg w2] end;
        simpl in *; [| done].
      destruct S as (new & -> & Hn & Hc & Hin & _ & Hcnt & Hfresh). simpl.
      by repeat split.
  - unfold LoadMultiWithDevice, engine_call. mstep.
    destruct (GetAndResetLastErr lib _) as [[e' |] eng']; simpl.
    + split; [done | by repeat split].
    + match goal with |- context [wrap_loaded lib G ?d ?a ?w1] =>
        pose proof (wrap_loaded_spec d a w1) as S;
        destruct (wrap_loaded lib G d a w1) as [nts w2 | msg w2] end;
        simpl in *; [| done].
      destruct S as (new & -> & Hn & Hc & Hin & _ & Hcnt & Hfresh). simpl.
      by repeat split.
Qed.

End Constructors.

(** ** The gradient mode

    The engine keeps one flag: [at_grad_set_enabled] returns the flag as
    it finds it and sets it as told, and the error query does not touch
    it. *)

Section GradMode.

Context {E : Type} (lib : Libtch E) (ops : LibtchOps E) (G : Gotch).

Variable grad : E -> bool.

Hypothesis grad_prev :
  forall c e, (AtGradSetEnabled ops c e).1 = Z.b2z (grad e).
Hypothesis grad_set :
  forall c e, grad (AtGradSetEnabled ops c e).2 = negb (c =? 0).
Hypothesis grad_err :
  forall e, grad (GetAndResetLastErr lib e).2 = grad e.

(** A call of [MustGradSetEnabled] that returns: it returns the mode it
    found and leaves the mode it was given; the variables and the trace but
    for the error query are as before. *)
Lemma MustGradSetEnabled_spec b (w : World E) prev w' :
  MustGradSetEnabled lib ops b w = Ok prev w' ->
  prev = grad (engine w) /\ grad (engine w') = b /\ same_vars w w' /\
  trace w' = trace w ++ [EvNative CGetAndResetLastErr].
Proof.
  unfold MustGradSetEnabled, GradSetEnabled, engine_call. mstep.
  pose proof (grad_err (AtGradSetEnabled ops (if b then 1 else 0) (engine w)).2)
    as He.
  destruct (GetAndResetLastErr lib _) as [[e' |] eng']; simpl; [done |].
  intros [= <- <-]. simpl. simpl in He.
  rewrite grad_prev, He, grad_set.
  split; [by destruct (grad (engine w)) |].
  split; [by destruct b |]. by repeat split.
Qed.

(** X20.  [NoGrad] runs its closure with the gradient mode off and
    leaves it on, whatever the mode was before the call. *)
Theorem NoGrad_leaves_grad_on fn (w : World E) w' :
  NoGrad lib ops fn w = Ok tt w' ->
  (exists w1 w2,
     MustGradSetEnabled lib ops false w = Ok (grad (engine w)) w1 /\
     grad (engine w1) = false /\ fn w1 = Ok tt w2) /\
  grad (engine w') = true.
Proof.
  unfold NoGrad, mbind, M_bind.
  destruct (MustGradSetEnabled lib ops false w) as [p w1 |] eqn:H1; [| done].
  destruct (fn w1) as [[] w2 |] eqn:Hfn; [| done].
  destruct (MustGradSetEnabled lib ops true w2) as [p2 w3 |] eqn:H2; [| done].
  intros [= <-].
  apply MustGradSetEnabled_spec in H1 as (-> & Hg1 & _).
  apply MustGradSetEnabled_spec in H2 as (_ & Hg2 & _).
  split; [by exists w1, w2 | done].
Qed.

(** X21.  A [NoGradGuard] remembers the mode it found and turns the
    mode off.  Its [Drop] does not go back to the remembered mode: it
    turns the mode on and stores [true]; [Enable] turns the mode off and
    stores [false]. *)
Theorem NoGradGuard_drop_enables (w w2 : World E) g w1 g' w3 :
  NewNoGradGuard lib ops w = Ok g w1 ->
  NoGradGuard_Drop lib ops g w2 = Ok g' w3 ->
  enabled g = grad (engine w) /\ grad (engine w1) = false /\
  enabled g' = true /\ grad (engine w3) = true /\
  forall g'' w4, NoGradGuard_Enable lib ops g' w3 = Ok g'' w4 ->
                 enabled g'' = false /\ grad (engine w4) = false.
Proof.
  unfold NewNoGradGuard, noGradGuardInit, NoGradGuard_Drop,
    NoGradGuard_Enable, mbind, M_bind. simpl.
  destruct (MustGradSetEnabled lib ops false w) as [p w1' |] eqn:H1; [| done].
  intros [= <- <-].
  destruct (MustGradSetEnabled lib ops true w2) as [p2 w3' |] eqn:H2; [| done].
  intros [= <- <-].
  apply MustGradSetEnabled_spec in H1 as (-> & Hg1 & _).
  apply MustGradSetEnabled_spec in H2 as (_ & Hg2 & _).
  repeat (split; [done |]). intros g'' w4.
  destruct (MustGradSetEnabled lib ops false w3') as [p3 w4' |] eqn:H3; [| done].
  intros [= <- <-].
  apply MustGradSetEnabled_spec in H3 as (_ & Hg3 & _). done.
Qed.



Hypothesis grad_new : forall e, grad (AtNewTensor lib e).2 = grad e.
Hypothesis grad_free : forall c e, grad (AtFree lib c e) = grad e.


End GradMode.

(** ** Padding *)

Section Padding.

Context {E : Type} (lib : Libtch E) (ops : LibtchOps E) (G : Gotch).

(** X23.  The engine reports an error for the padding of a registered
    tensor.  Without [del], [ConstantPadNdWithVal] returns the error and
    frees nothing.  With [del] it returns the same error, and the input is
    released all the same: its handle is passed to the free routine, its
    name leaves the registry and its handle field is [nil].  No wrapper is
    created. *)
Theorem ConstantPadNdWithVal_del_on_error ts h pad value e (w : World E) :
  ctensor ts = Some h -> name ts ∈ ExistingTensors w ->
  (GetAndResetLastErr lib
     (AtoConstantPadNd ops (ctensor ts) pad (len pad) value (engine w)).2).1
    = Some e ->
  (exists w',
     ConstantPadNdWithVal lib ops G ts pad value false w
       = Ok (ts, None, Some e) w' /\
     same_vars w w' /\ free_calls (trace w') = free_calls (trace w)) /\
  match ConstantPadNdWithVal lib ops G ts pad value true w with
  | Ok (ts', ret, err) w' =>
      ret = None /\ err = Some e /\
      ctensor ts' = None /\ (name ts ∉ ExistingTensors w') /\
      TensorCount w' = TensorCount w /\
      exists tr, trace w' = trace w ++ tr /\
                 free_calls tr = [CAtFree (Some h)]
  | Fatal msg w' =>
      Debug w = true \/
      exists e0, msg = release_error G (set_calledFrom "ts.Drop()" ts) e0
  end.
Proof.
  intros Hc Hin Herr. split.
  - unfold ConstantPadNdWithVal, engine_call. mstep.
    destruct (GetAndResetLastErr lib _) as [[e' |] eng']; simpl in *; [| done].
    injection Herr as ->. eexists. split; [done |].
    split; [by repeat split |]. simpl.
    by rewrite !free_calls_app, !app_nil_r.
  - unfold ConstantPadNdWithVal, engine_call. mstep.
    destruct (GetAndResetLastErr lib _) as [[e' |] eng']; simpl in *; [| done].
    injection Herr as ->.
    unfold MustDrop, mbind, M_bind.
    pose proof (fun w => release_eq lib G ByDrop ts w) as Hrel.
    unfold release in Hrel. rewrite Hrel.
    match goal with |- context [freeCTensor lib G ?t ?w1] =>
      pose proof (freeCTensor_spec lib G t w1) as S;
      destruct (freeCTensor lib G t w1) as [[ts' err] w' | msg w'] end;
      [| left; by destruct S].
    destruct S as (HTC & _ & tr & Htr & _ & _ & _ & _ & _ & Hcase).
    rewrite as_released_ctensor, as_released_name, Hc in Hcase.
    simpl in Hcase, HTC, Htr.
    rewrite (decide_True _ _ Hin) in Hcase. simpl in Hcase.
    destruct Hcase as (Hf & Hcase). destruct err as [e1 |]; simpl.
    + destruct Hcase as (-> & _ & _ & e0 & ->). right. exists e0.
      unfold as_released. by rewrite Hc.
    + destruct Hcase as (-> & Hreg & _). simpl.
      split; [done |]. split; [done |]. split; [done |].
      split; [rewrite Hreg; intros [_ Hn]%elem_of_difference;
              apply Hn; by apply elem_of_singleton |].
      split; [done |]. eexists. rewrite Htr. trace_norm.
      split; [done |]. simpl. by rewrite Hf.
Qed.

(** X24.  For a tensor whose dimension is not 4, [ZeroPad2d] returns an
    error and no tensor; it only queries the engine, does not call the
    padding operation, and does not release the input, with or without
    [del]. *)
Theorem ZeroPad2d_wrong_dim cpn ts l r t b del (w : World E) dim w1 :
  Dim lib ts w = Ok dim w1 -> dim <> 4 ->
  match ZeroPad2d lib G cpn ts l r t b del w with
  | Ok (ts', ret, err) w' =>
      ts' = ts /\ ret = None /\ is_Some err /\ same_vars w w' /\
      exists tr, trace w' = trace w ++ tr /\ free_calls tr = []
  | Fatal msg w' => MustSize lib G ts w1 = Fatal msg w'
  end.
Proof.
  intros HDim Hne. unfold ZeroPad2d, mbind, M_bind. rewrite HDim.
  destruct (Z.eqb_spec dim 4) as [| _]; [done |]. simpl.
  pose proof (query_MustSize lib G ts w1) as Hq.
  destruct (MustSize lib G ts w1) as [shape w2 | msg w2]; [| done].
  simpl. split; [done |]. split; [done |]. split; [by eexists |].
  frame_of Hq. simpl in *.
  assert (same_vars w w1 /\ exists tr1, trace w1 = trace w ++ tr1 /\
                                        forallb quiet tr1 = true) as [Hv1 Ht1].
  { revert HDim. unfold Dim, lib_AtDim. mstep.
    destruct (GetAndResetLastErr lib _) as [[e' |] eng']; simpl; [done |].
    intros [= _ <-]. split; [by repeat split |]. eexists. trace_norm.
    split; [done |]. done. }
  destruct Hv1 as (? & ? & ? & ?). destruct Ht1 as (tr1 & Htr1 & Hq1).
  split; [repeat split; congruence |].
  exists (tr1 ++ trq). rewrite Htrq, Htr1, app_assoc. split; [done |].
  rewrite free_calls_app, !quiet_free_calls by done. done.
Qed.

End Padding.

(** ** Runs of these properties on the simulated engine *)

Lemma acquire_registers_witness :
  exists x w',
    newTensor SimLib RefGotch (Some 1%positive) ["a"] (zero_world false sim0)
      = Ok x w' /\
    ExistingTensors w' = {[name x]} ∪ ExistingTensors (zero_world false sim0).
Proof.
  eexists _, _.
  assert (newTensor SimLib RefGotch (Some 1%positive) ["a"]
            (zero_world false sim0) = Ok ta (w_a false sim0)) as Hnew
    by (vm_compute; reflexivity).
  split; [exact Hnew |].
  destruct (acquire_registers SimLib RefGotch _ _ _ _ _ Hnew) as (Hreg & _).
  exact Hreg.
Defined.

Lemma auto_names_distinct_witness :
  exists x1 w1 x2 w2,
    newTensor SimLib RefGotch (Some 1%positive) [] (zero_world false sim0)
      = Ok x1 w1 /\
    newTensor SimLib RefGotch (Some 2%positive) [] w1 = Ok x2 w2 /\
    name x1 <> name x2.
Proof.
  eexists _, _, _, _.
  pose (o1 := newTensor SimLib RefGotch (Some 1%positive) []
                (zero_world false sim0)).
  assert (o1 = Ok (mkTensor "tensor_000000001" (Some 1%positive) "newTensor()")
                  (final o1)) as H1 by (vm_compute; reflexivity).
  pose (o2 := newTensor SimLib RefGotch (Some 2%positive) [] (final o1)).
  assert (o2 = Ok (mkTensor "tensor_000000002" (Some 2%positive) "newTensor()")
                  (final o2)) as H2 by (vm_compute; reflexivity).
  subst o1 o2.
  assert (Z.of_nat (count_new (E := Sim) []) < 2 ^ 64 - 1) as Hfew
    by (vm_compute; reflexivity).
  assert (forall w : World Sim,
            run_ops SimLib RefGotch [] ([], []) w = Ok ([], []) w) as Hmid
    by reflexivity.
  split; [exact H1 |]. split; [exact H2 |].
  exact (auto_names_distinct SimLib RefGotch _ _ [] _ _ _ _ _ _ _ _
           H1 Hfew (Hmid _) H2).
Defined.

Lemma shared_name_leak_witness :
  exists r1 w1 ts2' w2,
    release SimLib RefGotch ByDrop ta (w_a false sim0) = Ok (r1, None) w1 /\
    run_ops SimLib RefGotch [OpRelease ByDrop 0%nat; OpRelease ByFinalizer 0%nat]
      ([ta2], []) w1 = Ok ([ts2'], [None; None]) w2 /\
    ctensor ts2' = Some 2%positive.
Proof.
  eexists _, _.
  assert (release SimLib RefGotch ByDrop ta (w_a false sim0)
          = Ok (set_ctensor None (as_released ByDrop ta), None)
               (final (release SimLib RefGotch ByDrop ta (w_a false sim0))))
    as Hrel by (vm_compute; reflexivity).
  assert (name ta2 = name ta) as Hn by reflexivity.
  assert (is_Some (ctensor ta)) as Hs by (by eexists).
  assert (ctensor ta2 = Some 2%positive) as Hc by reflexivity.
  assert (name ta ∈ ExistingTensors (w_a false sim0)) as Hin.
  { apply (bool_decide_unpack (name ta ∈ ExistingTensors (w_a false sim0))).
    vm_compute. exact I. }
  destruct (shared_name_leak SimLib RefGotch ByDrop [ByDrop; ByFinalizer]
              ta ta2 _ _ _ _ Hn Hs Hc Hin Hrel)
    as (ts2' & w2 & tr & Hrun & Hc' & _).
  exists ts2', w2. split; [exact Hrel |]. split; [exact Hrun | exact Hc'].
Defined.

Lemma TensorCount_counts_created_witness :
  exists st' w',
    run_ops SimLib RefGotch [new_a; OpRelease ByDrop 0%nat] ([], [])
      (zero_world false sim0) = Ok st' w' /\
    TensorCount w' = 1.
Proof.
  eexists _, _.
  pose (o := run_ops SimLib RefGotch [new_a; OpRelease ByDrop 0%nat] ([], [])
               (zero_world false sim0)).
  assert (o = Ok ([set_ctensor None (as_released ByDrop ta)], [None]) (final o))
    as Hrun by (vm_compute; reflexivity).
  subst o.
  assert (is_int64 (TensorCount (zero_world false sim0))) as Hr
    by (vm_compute; split; congruence).
  split; [exact Hrun |].
  rewrite (TensorCount_counts_created SimLib RefGotch _ _ _ _ _ Hr Hrun).
  reflexivity.
Defined.

Lemma nil_handle_stays_registered_witness :
  exists x w1,
    newTensor SimLib RefGotch None ["a"] (zero_world false sim0) = Ok x w1 /\
    name x ∈ ExistingTensors w1 /\
    release SimLib RefGotch ByDrop x w1 = Ok (x, None) w1.
Proof.
  eexists _, _.
  pose (o := newTensor SimLib RefGotch None ["a"] (zero_world false sim0)).
  assert (o = Ok (mkTensor "a" None "newTensor()") (final o)) as Hnew
    by (vm_compute; reflexivity).
  subst o. split; [exact Hnew |].
  destruct (nil_handle_stays_registered SimLib RefGotch _ _ _ _ Hnew)
    as (_ & Hin & Hrel).
  split; [exact Hin |]. exact (proj1 (Hrel ByDrop _)).
Defined.

Lemma undefined_tensor_is_empty_witness :
  exists w',
    Numel SimLib RefGotch ta (zero_world false sim_undefined) = Ok 0 w' /\
    nbytes SimLib RefGotch ta (zero_world false sim_undefined) = Ok 0 w'.
Proof.
  assert ((AtDefined SimLib (ctensor ta)
             (engine (zero_world false sim_undefined))).1 = false) as H1
    by reflexivity.
  assert ((GetAndResetLastErr SimLib
             (AtDefined SimLib (ctensor ta)
                (engine (zero_world false sim_undefined))).2).1 = None) as H2
    by reflexivity.
  destruct (undefined_tensor_is_empty SimLib RefGotch ta _ H1 H2)
    as (w' & HN & Hb & _).
  exists w'. split; [exact HN | exact Hb].
Defined.

Lemma decodeSize_round_trip_witness :
  decodeSize RefGotch (store_int64s true [2; -3]) 2 (zero_world false sim0)
    = Ok [2; -3] (zero_world false sim0).
Proof.
  assert (DType_Size RefGotch (Int64 RefGotch) = 8) as H1 by reflexivity.
  assert (Forall is_int64 [2; -3]) as H2
    by (repeat constructor; vm_compute; congruence).
  assert (len [2; -3] <= 2 ^ 27) as H3 by (vm_compute; congruence).
  pose proof (decodeSize_round_trip RefGotch [2; -3] []
                (zero_world false sim0) H1 H2 H3) as H.
  rewrite app_nil_r in H. exact H.
Defined.

Lemma OfDataSize_engine_error_witness :
  exists w',
    OfDataSize SimLib RefGotch [x00; x00] [2] RUint8 []
      (zero_world false sim_pending) = Ok (None, Some "engine failed") w' /\
    same_vars (zero_world false sim_pending) w'.
Proof.
  assert (wrap_int64 (ElementCount RefGotch [2]
                      * to_int (DType_Size RefGotch RUint8))
          = len [x00; x00]) as H1 by (vm_compute; reflexivity).
  assert ((GetAndResetLastErr SimLib
             (AtTensorOfData SimLib [x00; x00] [2] (to_uint (len [2]))
                (DType_Size RefGotch RUint8)
                (to_int (DType_CKind RefGotch RUint8))
                (engine (zero_world false sim_pending))).2).1
          = Some "engine failed") as H2 by reflexivity.
  destruct (OfDataSize_engine_error SimLib RefGotch [x00; x00] [2] RUint8 []
              (zero_world false sim_pending) "engine failed" H1 H2)
    as (w' & Hrun & Hv & _).
  exists w'. split; [exact Hrun | exact Hv].
Defined.

Lemma OfDataSize_names_witness :
  exists x w',
    OfDataSize SimLib RefGotch [x00; x00] [2] RUint8 []
      (zero_world false sim0) = Ok (Some x, None) w' /\
    name x = "" /\ name x ∈ ExistingTensors w'.
Proof.
  pose (o := OfDataSize SimLib RefGotch [x00; x00] [2] RUint8 []
               (zero_world false sim0)).
  assert (o = Ok (Some (mkTensor "" (Some 1%positive) "newTensor()"), None)
                 (final o)) as Hrun by (vm_compute; reflexivity).
  subst o.
  destruct (OfDataSize_names SimLib RefGotch _ _ _ _ _ _ _ _ Hrun)
    as (_ & _ & _ & _ & Hin & _).
  eexists _, _. split; [exact Hrun |]. split; [reflexivity | exact Hin].
Defined.

Lemma CopyDataUint8_empty_witness :
  exists msg,
    CopyDataUint8 SimLib RefGotch ta [] 0 (zero_world false sim0)
      = Fatal msg (zero_world false sim0).
Proof.
  assert (0 <= 0 < 2 ^ 64) as H by (vm_compute; split; congruence).
  exact (CopyDataUint8_empty SimLib RefGotch ta 0 (zero_world false sim0) H).
Defined.

Lemma CopyData_type_mismatch_witness :
  exists e w',
    CopyData SimLib RefGotch ta ([x00] : GoData RefGotch) 1
      (zero_world false sim0) = Ok ([x00], Some e) w' /\
    same_vars (zero_world false sim0) w'.
Proof.
  assert (to_int 1 <= (DataCheck RefGotch ([x00] : GoData RefGotch)).1.2) as H1
    by (vm_compute; congruence).
  assert (CKind2DType RefGotch
            (AtScalarType SimLib (ctensor ta)
               (engine (zero_world false sim0))).1
          <> (DataCheck RefGotch ([x00] : GoData RefGotch)).1.1) as H2
    by (vm_compute; congruence).
  destruct (CopyData_type_mismatch SimLib RefGotch ta
              ([x00] : GoData RefGotch) 1 (zero_world false sim0) H1 H2)
    as (e & w' & Hrun & Hv & _).
  exists e, w'. split; [exact Hrun | exact Hv].
Defined.

Lemma NoGrad_leaves_grad_on_witness :
  exists w',
    NoGrad SimLibG SimOps (mret tt) (zero_world false (simg false)) = Ok tt w' /\
    (engine w').2 = true.
Proof.
  pose (o := NoGrad SimLibG SimOps (mret tt) (zero_world false (simg false))).
  assert (o = Ok tt (final o)) as Hrun by (vm_compute; reflexivity).
  subst o. eexists. split; [exact Hrun |].
  exact (proj2 (NoGrad_leaves_grad_on SimLibG SimOps snd
                  (fun c e => eq_refl) (fun c e => eq_refl) (fun e => eq_refl)
                  _ _ _ Hrun)).
Defined.

Lemma NoGradGuard_drop_enables_witness :
  exists g w1 g' w3,
    NewNoGradGuard SimLibG SimOps (zero_world false (simg false)) = Ok g w1 /\
    NoGradGuard_Drop SimLibG SimOps g w1 = Ok g' w3 /\
    enabled g = false /\ (engine w3).2 = true.
Proof.
  pose (o1 := NewNoGradGuard SimLibG SimOps (zero_world false (simg false))).
  assert (o1 = Ok (mkNoGradGuard false) (final o1)) as H1
    by (vm_compute; reflexivity).
  pose (o2 := NoGradGuard_Drop SimLibG SimOps (mkNoGradGuard false) (final o1)).
  assert (o2 = Ok (mkNoGradGuard true) (final o2)) as H2
    by (vm_compute; reflexivity).
  subst o1 o2.
  destruct (NoGradGuard_drop_enables SimLibG SimOps snd
              (fun c e => eq_refl) (fun c e => eq_refl) (fun e => eq_refl)
              _ _ _ _ _ _ H1 H2) as (Hg & _ & _ & Hon & _).
  eexists _, _, _, _. split; [exact H1 |]. split; [exact H2 |].
  split; [exact Hg | exact Hon].
Defined.


Lemma ConstantPadNdWithVal_del_on_error_witness :
  let w := final (newTensor SimLibG RefGotch (Some 1%positive) ["a"]
                    (zero_world false (simg_err true))) in
  exists ts' w',
    ConstantPadNdWithVal SimLibG SimOps RefGotch ta [1; 1] None true w
      = Ok (ts', None, Some "engine failed") w' /\
    ctensor ts' = None /\ (name ta ∉ ExistingTensors w').
Proof.
  intros w.
  assert (ctensor ta = Some 1%positive) as Hc by reflexivity.
  assert (name ta ∈ ExistingTensors w) as Hin.
  { apply (bool_decide_unpack (name ta ∈ ExistingTensors w)).
    vm_compute. exact I. }
  assert ((GetAndResetLastErr SimLibG
             (AtoConstantPadNd SimOps (ctensor ta) [1; 1] (len [1; 1]) None
                (engine w)).2).1 = Some "engine failed") as He
    by reflexivity.
  destruct (ConstantPadNdWithVal_del_on_error SimLibG SimOps RefGotch
              ta 1%positive [1; 1] None "engine failed" w Hc Hin He)
    as [_ H].
  pose (o := ConstantPadNdWithVal SimLibG SimOps RefGotch ta [1; 1] None true w).
  assert (o = Ok (set_ctensor None (as_released ByDrop ta), None,
                  Some "engine failed") (final o)) as Hrun
    by (vm_compute; reflexivity).
  subst o. rewrite Hrun in H.
  destruct H as (_ & _ & Hnil & Hout & _).
  eexists _, _. split; [exact Hrun |]. split; [exact Hnil | exact Hout].
Defined.

Lemma ZeroPad2d_wrong_dim_witness :
  exists e w',
    ZeroPad2d SimLib RefGotch (fun ts pad del => mret (ts, None, None))
      ta 1 1 1 1 true (zero_world false sim0) = Ok (ta, None, Some e) w' /\
    same_vars (zero_world false sim0) w'.
Proof.
  pose (o := Dim SimLib ta (zero_world false sim0)).
  assert (o = Ok 1 (final o)) as HDim by (vm_compute; reflexivity).
  subst o.
  assert (1 <> 4) as Hne by discriminate.
  pose proof (ZeroPad2d_wrong_dim SimLib RefGotch
                (fun ts pad del => mret (ts, None, None)) ta 1 1 1 1 true
                (zero_world false sim0) 1 _ HDim Hne) as H.
  destruct (ZeroPad2d SimLib RefGotch _ ta 1 1 1 1 true (zero_world false sim0))
    as [[[ts' ret] err] w' | msg w'] eqn:Hrun.
  - destruct H as (-> & -> & [e ->] & Hv & _). by exists e, w'.
  - exfalso. revert H. vm_compute. discriminate.
Defined.

Lemma debug_bytes_balance_witness :
  exists r w2,
    release SimLib RefGotch ByDrop ta (w_a true sim0) = Ok r w2 /\
    AllocatedMem (w_a true sim0) = 8 /\ AllocatedMem w2 = 0.
Proof.
  assert (Debug (zero_world true sim0) = true) as Hd by reflexivity.
  assert (is_int64 (AllocatedMem (zero_world true sim0))) as Hr
    by (vm_compute; split; congruence).
  assert (steady SimLib (Some 1%positive) (engine (zero_world true sim0)))
    as Hst by (by repeat split).
  assert ((AtDefined SimLib (Some 1%positive)
             (engine (zero_world true sim0))).1 = true) as Hdef
    by reflexivity.
  assert (newTensor SimLib RefGotch (Some 1%positive) ["a"]
            (zero_world true sim0) = Ok ta (w_a true sim0)) as Hnew
    by (vm_compute; reflexivity).
  assert (release SimLib RefGotch ByDrop ta (w_a true sim0)
          = Ok (set_ctensor None (as_released ByDrop ta), None)
               (final (release SimLib RefGotch ByDrop ta (w_a true sim0))))
    as Hrel by (vm_compute; reflexivity).
  eexists _, _. split; [exact Hrel |]. split; [vm_compute; reflexivity |].
  exact (debug_bytes_balance SimLib RefGotch 1%positive ["a"] ByDrop
           _ _ _ _ _ Hd Hr Hst Hdef Hnew Hrel).
Defined.
